(** * Session manager of the passport service (package [session])

    A shallow embedding of [src/session/session.go]: the store registry,
    the session manager with its identifier map and recency list, the cookie
    protocol of [GetSession] / [SessionDestroy], and the reclamation loop
    [gc].  The manager is modelled sequentially: every exported method and
    every run of [gc] is one atomic transition of a state that holds the
    manager, the store objects it points to, the registry and the wall
    clock (the [sync.RWMutex] is therefore not represented).  The
    package-level wrappers around the default manager forward to the
    methods; they are modelled last, in [facade]. *)

From Stdlib Require Import ZArith Ascii String Sorted.
From stdpp Require Import base gmap strings list fin_maps sorting.

Local Open Scope Z_scope.

(** ** Machine integers *)

(** Go's [int64]: a [Z] together with two's-complement wrap-around. *)
Definition int64_min : Z := - 2 ^ 63.
Definition int64_max : Z := 2 ^ 63 - 1.

Definition wrap64 (z : Z) : Z := (z + 2 ^ 63) mod 2 ^ 64 - 2 ^ 63.

Definition add64 (a b : Z) : Z := wrap64 (a + b).
Definition sub64 (a b : Z) : Z := wrap64 (a - b).
Definition mul64 (a b : Z) : Z := wrap64 (a * b).

Definition in_int64 (z : Z) : Prop := int64_min <= z <= int64_max.

(** ** Results *)

(** The [error] values that travel through the package. *)
Inductive error : Type :=
  | EscapeError (s : string)       (* net/url: invalid URL escape *)
  | ErrCSPRNG                      (* sessionId: short or failed read *)
  | ErrNoTypes (typeName : string) (* newSessionStore: unknown type *)
  | StoreError (msg : string).     (* whatever a store factory reports *)

(** A call either returns, or panics, or (for the fuel-bounded rendering of
    the [for] loop of [gc] only) exhausts its fuel. *)
Inductive outcome (A : Type) : Type :=
  | Return (a : A)
  | Panic (msg : string)
  | OutOfFuel.
Arguments Return {A} a.
Arguments Panic {A} msg.
Arguments OutOfFuel {A}.

#[global] Instance outcome_ret : MRet outcome := @Return.
#[global] Instance outcome_bind : MBind outcome := fun A B f m =>
  match m with
  | Return a => f a
  | Panic msg => Panic msg
  | OutOfFuel => OutOfFuel
  end.

(** ** [net/url]: query escaping *)

Module url.

Definition ishex (c : ascii) : bool :=
  let n := N_of_ascii c in
  ((48 <=? n) && (n <=? 57) || (97 <=? n) && (n <=? 102)
   || (65 <=? n) && (n <=? 70))%N.

Definition unhex (c : ascii) : N :=
  let n := N_of_ascii c in
  (if (48 <=? n) && (n <=? 57) then n - 48
   else if (97 <=? n) && (n <=? 102) then n - 97 + 10
   else if (65 <=? n) && (n <=? 70) then n - 65 + 10
   else 0)%N.

(** [unescape s encodeQueryComponent].  The library validates in a first
    pass and rewrites in a second one; the first malformed [%] met from
    the left decides the error in both renderings. *)
Fixpoint unescape (s : string) : string + error :=
  match s with
  | EmptyString => inl EmptyString
  | String c rest =>
      if Ascii.eqb c "%" then
        match rest with
        | String a (String b rest') =>
            if ishex a && ishex b then
              match unescape rest' with
              | inl t =>
                  inl (String (ascii_of_N
                                 (N.lor (N.shiftl (unhex a) 4) (unhex b))) t)
              | inr e => inr e
              end
            else inr (EscapeError (substring 0 3 s))
        | _ => inr (EscapeError (substring 0 3 s))
        end
      else
        match unescape rest with
        | inl t => inl (String (if Ascii.eqb c "+" then " "%char else c) t)
        | inr e => inr e
        end
  end.

(** [url.QueryUnescape]: Go's pair [(string, error)]; the string is empty
    whenever the error is set. *)
Definition QueryUnescape (s : string) : string * option error :=
  match unescape s with
  | inl t => (t, None)
  | inr e => (EmptyString, Some e)
  end.

Definition isalnum (c : ascii) : bool :=
  let n := N_of_ascii c in
  ((97 <=? n) && (n <=? 122) || (65 <=? n) && (n <=? 90)
   || (48 <=? n) && (n <=? 57))%N.

(** [shouldEscape c encodeQueryComponent] *)
Definition shouldEscape (c : ascii) : bool :=
  if isalnum c then false
  else if Ascii.eqb c "-" || Ascii.eqb c "_" || Ascii.eqb c "."
          || Ascii.eqb c "~" then false
  else true.

Definition upperhex (n : N) : ascii :=
  (if n <? 10 then ascii_of_N (48 + n) else ascii_of_N (55 + n))%N.

(** [url.QueryEscape] *)
Fixpoint QueryEscape (s : string) : string :=
  match s with
  | EmptyString => EmptyString
  | String c rest =>
      if Ascii.eqb c " " then String "+" (QueryEscape rest)
      else if shouldEscape c then
        String "%" (String (upperhex (N.shiftr (N_of_ascii c) 4))
                      (String (upperhex (N.land (N_of_ascii c) 15))
                         (QueryEscape rest)))
      else String c (QueryEscape rest)
  end.

End url.

(** ** [encoding/hex] *)

Module hex.

Definition hextable (n : N) : ascii :=
  (if n <? 10 then ascii_of_N (48 + n) else ascii_of_N (87 + n))%N.

Fixpoint EncodeToString (src : list Byte.byte) : string :=
  match src with
  | [] => EmptyString
  | v :: rest =>
      String (hextable (N.shiftr (Byte.to_N v) 4))
        (String (hextable (N.land (Byte.to_N v) 15)) (EncodeToString rest))
  end.

End hex.

(** ** [net/http]: the cookie primitives the manager uses *)

Module http.

Record Cookie : Type := mkCookie {
  Name : string;
  Value : string;
  Path : string;
  Domain : string;
  Expires : option Z;      (* [None]: the zero time, no Expires attribute *)
  MaxAge : Z;
  HttpOnly : bool
}.

(** A request is seen through the cookies of its [Cookie] header line, as
    [r.Cookies()] reads them, front first; a response writer through the
    cookies for which [http.SetCookie] added a [Set-Cookie] line (the line
    is the cookie's [String()]). *)
Abbreviation Request := (list Cookie).
Abbreviation ResponseWriter := (list Cookie).

(** [r.Cookie(name)]: the first cookie of that name, [None] standing for
    [ErrNoCookie]. *)
Fixpoint CookieOf (r : Request) (name : string) : option Cookie :=
  match r with
  | [] => None
  | c :: rest => if String.eqb (Name c) name then Some c else CookieOf rest name
  end.

Fixpoint every (P : ascii -> bool) (s : string) : bool :=
  match s with
  | EmptyString => true
  | String c rest => P c && every P rest
  end.

Fixpoint keep (P : ascii -> bool) (s : string) : string :=
  match s with
  | EmptyString => EmptyString
  | String c rest => if P c then String c (keep P rest) else keep P rest
  end.

(** [httpguts.IsTokenRune]: letters, digits and [!#$%&'*+-.^_`|~]; no byte
    above 127 is part of a token. *)
Definition isToken (c : ascii) : bool :=
  let n := N_of_ascii c in
  ((97 <=? n) && (n <=? 122) || (65 <=? n) && (n <=? 90)
   || (48 <=? n) && (n <=? 57)
   || existsb (N.eqb n)
        [33; 35; 36; 37; 38; 39; 42; 43; 45; 46; 94; 95; 96; 124; 126])%N.

Definition isCookieNameValid (raw : string) : bool :=
  negb (String.eqb raw "") && every isToken raw.

Definition validCookieValueByte (c : ascii) : bool :=
  let n := N_of_ascii c in
  ((32 <=? n) && (n <? 127) && negb (n =? 34) && negb (n =? 59)
   && negb (n =? 92))%N.

Definition dquote : ascii := ascii_of_N 34.

(** [sanitizeCookieName]: line breaks become [-]. *)
Fixpoint sanitizeCookieName (n : string) : string :=
  match n with
  | EmptyString => EmptyString
  | String c rest =>
      String (if (N_of_ascii c =? 10)%N || (N_of_ascii c =? 13)%N
              then "-"%char else c)
        (sanitizeCookieName rest)
  end.

(** [sanitizeCookieValue]: the bytes that are not allowed in a value are
    dropped, and what is left is quoted when it holds a space or a comma. *)
Definition sanitizeCookieValue (v : string) : string :=
  let v := keep validCookieValueByte v in
  if String.eqb v "" then v
  else if every (fun c => negb (Ascii.eqb c " " || Ascii.eqb c ",")) v then v
  else String dquote (v +:+ String dquote EmptyString).

(** [parseCookieValue(raw, true)]: surrounding quotes are stripped; [None]
    when a byte of the rest is not allowed. *)
Definition parseCookieValue (raw : string) : option string :=
  let n := String.length raw in
  let raw :=
    if (1 <? n)%nat && bool_decide (String.get 0%nat raw = Some dquote)
       && bool_decide (String.get (n - 1)%nat raw = Some dquote)
    then substring 1%nat (n - 2)%nat raw else raw in
  if every validCookieValueByte raw then Some raw else None.

Definition isASCIISpace (c : ascii) : bool :=
  let n := N_of_ascii c in
  ((n =? 32) || (n =? 9) || (n =? 10) || (n =? 13))%N.

Fixpoint trimLeft (s : string) : string :=
  match s with
  | EmptyString => EmptyString
  | String c rest => if isASCIISpace c then trimLeft rest else s
  end.

Fixpoint trimRight (s : string) : string :=
  match s with
  | EmptyString => EmptyString
  | String c rest =>
      match trimRight rest with
      | EmptyString => if isASCIISpace c then EmptyString else String c EmptyString
      | t => String c t
      end
  end.

(** [textproto.TrimString] *)
Definition TrimString (s : string) : string := trimRight (trimLeft s).

(** [strings.Cut(s, sep)] for a separator of one byte: what precedes its
    first occurrence and what follows it; all of [s] and the empty string
    when it does not occur. *)
Fixpoint Cut (s : string) (sep : ascii) : string * string :=
  match s with
  | EmptyString => (EmptyString, EmptyString)
  | String c rest =>
      if Ascii.eqb c sep then (EmptyString, rest)
      else let '(before, after) := Cut rest sep in (String c before, after)
  end.

(** The pieces [strings.Cut(line, ";")] yields one after the other. *)
Fixpoint parts (line : string) : list string :=
  match line with
  | EmptyString => []
  | String c rest =>
      if Ascii.eqb c ";" then EmptyString :: parts rest
      else match parts rest with
           | [] => [String c EmptyString]
           | part :: more => String c part :: more
           end
  end.

(** [readCookies] on one header line, without a filter: every piece
    [name=value] whose name is a token and whose value parses is a cookie;
    the other pieces are skipped. *)
Definition readCookies (line : string) : list Cookie :=
  omap (fun part =>
          let part := TrimString part in
          if String.eqb part "" then None
          else
            let '(name, val) := Cut part "=" in
            let name := TrimString name in
            if isCookieNameValid name then
              match parseCookieValue val with
              | Some v => Some (mkCookie name v "" "" None 0 false)
              | None => None
              end
            else None)
    (parts (TrimString line)).

(** [r.AddCookie(c)]: only [name=value], both sanitized, is appended to the
    header line (after [; ] when the line is not empty); the request then
    carries in addition what [readCookies] finds in that piece. *)
Definition AddCookie (r : Request) (c : Cookie) : Request :=
  r ++ readCookies (sanitizeCookieName (Name c) +:+ String "="%char
                      (sanitizeCookieValue (Value c))).

(** [http.SetCookie(w, c)]: [c.String()] is empty for a cookie whose name
    is not a token, and then no header line is added. *)
Definition SetCookie (w : ResponseWriter) (c : Cookie) : ResponseWriter :=
  if isCookieNameValid (Name c) then w ++ [c] else w.

End http.

(** ** [container/list] *)

Module golist.

(** A [*list.Element]: its address and the [Value] it carries, here the
    address of a session store.  [Value] is never reassigned. *)
Record Element : Type := mkElement { eaddr : nat; Value : nat }.

(** Front of the list first. *)
Abbreviation List := (list Element).

Definition New : List := [].

Definition Front (l : List) : option Element := head l.

Definition member (e : Element) (l : List) : bool :=
  bool_decide (eaddr e ∈ eaddr <$> l).

(** [l.Remove(e)]: pointer identity is identity of addresses. *)
Definition Remove (e : Element) (l : List) : List :=
  filter (fun x => eaddr x ≠ eaddr e) l.

(** [l.PushBack(v)] with [a] the address of the new element. *)
Definition PushBack (a : nat) (v : nat) (l : List) : List * Element :=
  (l ++ [mkElement a v], mkElement a v).

(** [l.MoveToBack(e)]: nothing happens when [e] is not an element of [l]. *)
Definition MoveToBack (e : Element) (l : List) : List :=
  if member e l then Remove e l ++ [e] else l.

End golist.

(** ** Session stores *)

(** Modelled from the spec: the implementations of the [SessionStore]
    interface are not part of the sources, so a store object is the
    bookkeeping of section 4.1 of the specification: identifier, creation
    time, last-active time, and whether it has been released.  The payload
    is left out, the manager never reads or writes it. *)
Record SessionStore : Type := mkStore {
  store_id : string;
  store_create : Z;
  store_active : Z;
  store_released : bool
}.

(** Modelled from the spec: [Id(s)] sets the identifier when [s] is not
    empty and returns the current identifier. *)
Definition Id (s : string) (st : SessionStore) : SessionStore * string :=
  if String.eqb s "" then (st, store_id st)
  else (mkStore s (store_create st) (store_active st) (store_released st), s).

(** Modelled from the spec: [CreateTime()]. *)
Definition CreateTime (st : SessionStore) : Z := store_create st.

(** Modelled from the spec: [Active(set)] reads the last-active time, after
    stamping it with the current time when [set] is true. *)
Definition Active (set : bool) (now : Z) (st : SessionStore)
  : SessionStore * Z :=
  if set then
    (mkStore (store_id st) (store_create st) now (store_released st), now)
  else (st, store_active st).

(** Modelled from the spec: [Release()] is an idempotent teardown that keeps
    the bookkeeping. *)
Definition Release (st : SessionStore) : SessionStore :=
  mkStore (store_id st) (store_create st) (store_active st) true.

(** Modelled from the spec: what the factory of an in-memory store builds,
    created and last active at the time of construction. *)
Definition NewMemoryStore (config : string) (now : Z) : SessionStore + error :=
  inl (mkStore "" now now false).

(** [type SessionStoreType func(interface{}) (SessionStore, error)]: the
    factory gets the configuration blob and may read the clock; a store it
    returns is a new object. *)
Definition SessionStoreType : Type := string -> Z -> SessionStore + error.

(** [type PrepireReleaseFunc func(SessionStore)]: the callback acts on the
    store it is handed. *)
Definition PrepireReleaseFunc : Type := SessionStore -> SessionStore.

(** ** The registry *)

(** [RegisterSessionStore(name, one)] on the package variable [stores];
    [one = None] is the nil function. *)
Definition RegisterSessionStore (name : string) (one : option SessionStoreType)
    (stores : gmap string SessionStoreType)
  : outcome (gmap string SessionStoreType) :=
  match one with
  | None => Panic "Register SessionStore nil"
  | Some f =>
      match stores !! name with
      | Some _ => Panic ("Register SessionStore duplicate for " ++ name)
      | None => Return (<[name := f]> stores)
      end
  end.

(** ** The manager *)

Record SessionManager : Type := mkSessionManager {
  Domain : string;
  StoreType : string;
  CookieName : string;
  IdleTime : Z;
  CookieExpire : Z;
  StoreConfig : string;
  prepireRelease : option PrepireReleaseFunc;
  sessions : option (gmap string golist.Element);   (* [None]: nil map *)
  list_ : option golist.List;                       (* [None]: nil list *)
  destroied : bool
}.

(** The manager [p] with what it points to: the store objects (a store
    address is an index into [heap], addresses below [brk] are allocated),
    the allocator of list elements, the registry and the clock
    ([time.Now().Unix()]). *)
Record State : Type := mkState {
  p : SessionManager;
  heap : nat -> SessionStore;
  brk : nat;
  ebrk : nat;
  stores : gmap string SessionStoreType;
  now : Z
}.

Definition with_tables (m : option (gmap string golist.Element))
    (l : option golist.List) (q : SessionManager) : SessionManager :=
  mkSessionManager (Domain q) (StoreType q) (CookieName q) (IdleTime q)
    (CookieExpire q) (StoreConfig q) (prepireRelease q) m l (destroied q).

Definition set_p (q : SessionManager) (σ : State) : State :=
  mkState q (heap σ) (brk σ) (ebrk σ) (stores σ) (now σ).

Definition set_heap (h : nat -> SessionStore) (σ : State) : State :=
  mkState (p σ) h (brk σ) (ebrk σ) (stores σ) (now σ).

(** Time passes. *)
Definition tick (d : nat) (σ : State) : State :=
  mkState (p σ) (heap σ) (brk σ) (ebrk σ) (stores σ) (now σ + Z.of_nat d).

(** In-place update of the store at address [a]. *)
Definition update (a : nat) (f : SessionStore -> SessionStore) (σ : State)
  : State :=
  set_heap (fun b => if decide (b = a) then f (heap σ a) else heap σ b) σ.

(** [p.sessions[sid]]: reading a nil map finds nothing. *)
Definition lookup_session (sid : string) (σ : State) : option golist.Element :=
  match sessions (p σ) with
  | Some m => m !! sid
  | None => None
  end.

(** [newSessionStore(typeName, config)] *)
Definition newSessionStore (typeName : string) (config : string) (σ : State)
  : SessionStore + error :=
  match stores σ !! typeName with
  | Some newFunc => newFunc config (now σ)
  | None => inr (ErrNoTypes typeName)
  end.

(** What [rand.Read(b)] did to the 24-byte buffer [b]. *)
Record RandRead : Type := mkRandRead {
  rand_buf : list Byte.byte;
  rand_n : nat;
  rand_err : bool
}.

(** [p.sessionId()] *)
Definition sessionId (rnd : RandRead) : string * option error :=
  let b := take 24 (rand_buf rnd ++ replicate 24 Byte.x00) in
  if negb (Nat.eqb (rand_n rnd) (length b)) || rand_err rnd
  then (EmptyString, Some ErrCSPRNG)
  else (hex.EncodeToString b, None).

(** Lines 121-126, 188-193 and 218-222: the session is stamped and its
    element moved to the back ([MoveToBack] leaves a list alone that does
    not own the element, the nil list included). *)
Definition touch (sess : golist.Element) (σ : State) : State :=
  let σ1 := update (golist.Value sess) (fun st => fst (Active true (now σ) st)) σ in
  set_p (with_tables (sessions (p σ1))
           (golist.MoveToBack sess <$> list_ (p σ1)) (p σ1)) σ1.

(** Lines 130-138 and 197-205: a new store is built, given its identifier,
    pushed to the back and indexed.  [PushBack] on the nil list and the
    assignment into the nil map panic. *)
Definition create (sid : string) (σ : State)
  : outcome (option nat * option error * State) :=
  match newSessionStore (StoreType (p σ)) (StoreConfig (p σ)) σ with
  | inr e => Return (None, Some e, σ)
  | inl st =>
      let a := brk σ in
      let σ1 :=
        mkState (p σ)
          (fun b => if decide (b = a) then fst (Id sid st) else heap σ b)
          (S a) (ebrk σ) (stores σ) (now σ) in
      match list_ (p σ1) with
      | None => Panic "invalid memory address or nil pointer dereference"
      | Some l =>
          let '(l', e) := golist.PushBack (ebrk σ1) a l in
          match sessions (p σ1) with
          | None => Panic "assignment to entry in nil map"
          | Some m =>
              Return (Some a, None,
                      mkState (with_tables (Some (<[sid := e]> m)) (Some l') (p σ1))
                        (heap σ1) (brk σ1) (S (ebrk σ1)) (stores σ1) (now σ1))
          end
      end
  end.

(** Lines 102-115 of [GetSession]: the working identifier, the error of
    its computation, [writeCookie], and the cookie variable. *)
Definition resolve_id (q : SessionManager) (rnd : RandRead)
    (r : http.Request) (sessionid : string)
  : string * option error * bool * option http.Cookie :=
  let fallback (cookie : option http.Cookie) :=
    if String.eqb sessionid "" then
      let '(sid, err) := sessionId rnd in (sid, err, true, cookie)
    else (sessionid, None, true, cookie) in
  match http.CookieOf r (CookieName q) with
  | None => fallback None
  | Some cookie =>
      if String.eqb (http.Value cookie) "" then fallback (Some cookie)
      else
        let '(sid, err) := url.QueryUnescape (http.Value cookie) in
        (sid, err, false, Some cookie)
  end.

(** [p.GetSession(w, r, sessionid)]: the session (a store address), the
    error, and the response, request and state it leaves. *)
Definition GetSession (rnd : RandRead) (w : http.ResponseWriter)
    (r : http.Request) (sessionid : string) (σ : State)
  : outcome (option nat * option error * http.ResponseWriter * http.Request
             * State) :=
  let '(sid, err, writeCookie, cookie) := resolve_id (p σ) rnd r sessionid in
  match err with
  | Some e => Return (None, Some e, w, r, σ)
  | None =>
      match lookup_session sid σ with
      | Some sess => Return (Some (golist.Value sess), None, w, r, touch sess σ)
      | None =>
          '(session, err, σ') ← create sid σ;
          match err with
          | Some e => Return (session, Some e, w, r, σ')
          | None =>
              let fresh :=
                http.mkCookie (CookieName (p σ)) (url.QueryEscape sid) "/"
                  (Domain (p σ)) None
                  (if 0 <=? CookieExpire (p σ) then CookieExpire (p σ) else 0)
                  false in
              let cookie' := if writeCookie then Some fresh else cookie in
              let w' := if writeCookie then http.SetCookie w fresh else w in
              match cookie' with
              | None => Panic "invalid memory address or nil pointer dereference"
              | Some c => Return (session, None, w', http.AddCookie r c, σ')
              end
          end
      end
  end.

(** [p.SessionDestroy(w, r)] *)
Definition SessionDestroy (w : http.ResponseWriter) (r : http.Request)
    (σ : State) : outcome (string * http.ResponseWriter * State) :=
  match http.CookieOf r (CookieName (p σ)) with
  | None => Return (EmptyString, w, σ)
  | Some cookie =>
      if String.eqb (http.Value cookie) "" then Return (EmptyString, w, σ)
      else
        let sessionid := fst (url.QueryUnescape (http.Value cookie)) in
        let σ' :=
          match lookup_session sessionid σ with
          | Some session => update (golist.Value session) Release σ
          | None => σ
          end in
        Return (sessionid,
                http.SetCookie w
                  (http.mkCookie (CookieName (p σ)) "" "/" "" (Some (now σ))
                     (-1) true),
                σ')
  end.

(** [p.GetSessionById(sid)] *)
Definition GetSessionById (sid : string) (σ : State)
  : outcome (option nat * option error * State) :=
  if String.eqb sid "" then Return (None, None, σ)
  else
    match lookup_session sid σ with
    | Some sess => Return (Some (golist.Value sess), None, touch sess σ)
    | None => create sid σ
    end.

(** [p.SessionDestroyById(sid)] *)
Definition SessionDestroyById (sid : string) (σ : State) : outcome State :=
  match lookup_session sid σ with
  | Some session => Return (update (golist.Value session) Release σ)
  | None => Return σ
  end.

(** [p.SessionUpdate(sid)] *)
Definition SessionUpdate (sid : string) (σ : State) : outcome State :=
  match lookup_session sid σ with
  | Some sess => Return (touch sess σ)
  | None => Return σ
  end.

(** [p.Destroy()] *)
Definition Destroy (σ : State) : State :=
  set_p (mkSessionManager (Domain (p σ)) (StoreType (p σ)) (CookieName (p σ))
           (IdleTime (p σ)) (CookieExpire (p σ)) (StoreConfig (p σ))
           (prepireRelease (p σ)) None None true) σ.

(** [p.SetPrepireRelease(pf)] *)
Definition SetPrepireRelease (pf : option PrepireReleaseFunc) (σ : State)
  : State :=
  set_p (mkSessionManager (Domain (p σ)) (StoreType (p σ)) (CookieName (p σ))
           (IdleTime (p σ)) (CookieExpire (p σ)) (StoreConfig (p σ))
           pf (sessions (p σ)) (list_ (p σ)) (destroied (p σ))) σ.

(** ** The reclamation loop *)

(** One eviction as the loop performs it: the store released, the
    last-active time read from it by the test of line 260, and the clock at
    that moment. *)
Record Eviction : Type := mkEviction {
  ev_store : nat;
  ev_active : Z;
  ev_time : Z
}.

(** Lines 267-275: callback, release, removal from the map (under the
    identifier the store reports) and from the list. *)
Definition evict (element : golist.Element) (σ : State) : State :=
  let a := golist.Value element in
  let σ1 :=
    match prepireRelease (p σ) with
    | Some pf => update a pf σ
    | None => σ
    end in
  let σ2 := update a Release σ1 in
  let sid := snd (Id "" (heap σ2 a)) in
  set_p (with_tables (delete sid <$> sessions (p σ2))
           (golist.Remove element <$> list_ (p σ2)) (p σ2)) σ2.

(** The [for] loop of lines 251-276.  Every turn that does not leave the
    loop removes the front element, so the length of the list bounds the
    number of turns; [fuel] counts them.  The result is the state, the
    value of [sleep], and the evictions made. *)
Fixpoint gc_loop (fuel : nat) (sleep : Z) (log : list Eviction) (σ : State)
  : outcome (State * Z * list Eviction) :=
  if destroied (p σ) then Return (σ, sleep, log)
  else
    match fuel with
    | O => OutOfFuel
    | S fuel' =>
        match list_ (p σ) with
        | None => Panic "invalid memory address or nil pointer dereference"
        | Some l =>
            match golist.Front l with
            | None => Return (σ, sleep, log)
            | Some element =>
                let active := snd (Active false (now σ) (heap σ (golist.Value element))) in
                if add64 active (IdleTime (p σ)) >? now σ then
                  Return (σ, sub64 (add64 active (IdleTime (p σ))) (now σ), log)
                else
                  gc_loop fuel' sleep
                    (log ++ [mkEviction (golist.Value element) active (now σ)])
                    (evict element σ)
            end
        end
    end.

(** [p.gc()]: the loop, then [time.AfterFunc(time.Duration(sleep) *
    time.Second, p.gc)] unless the manager is destroyed.  The second
    component is the duration of the timer armed, in nanoseconds, [None]
    when no timer is armed. *)
Definition gc (σ : State) : outcome (State * option Z * list Eviction) :=
  '(σ', sleep, log) ← gc_loop (S (length (default [] (list_ (p σ))))) 10 [] σ;
  Return (σ',
          if destroied (p σ') then None else Some (mul64 sleep 1000000000),
          log).

(** The decoded configuration of [NewSessionManager] (the JSON fields of
    [SessionManager]). *)
Record Config : Type := mkConfig {
  domain : string;
  store_type : string;
  cookie_name : string;
  idle_time : Z;
  cookie_expire : Z;
  store_config : string
}.

(** [NewSessionManager(sessionConfig)]: no manager for the nil
    configuration; otherwise the manager replaces [p], with an empty map
    and list, and [gc] runs once.  The JSON round trip through
    [json.Marshal] and [Decode] is represented by its result. *)
Definition NewSessionManager (sessionConfig : option Config) (σ : State)
  : outcome (option (State * option Z)) :=
  match sessionConfig with
  | None => Return None
  | Some c =>
      let m :=
        mkSessionManager (domain c) (store_type c) (cookie_name c)
          (idle_time c) (cookie_expire c) (store_config c) None
          (Some ∅) (Some golist.New) false in
      '(σ', timer, _) ← gc (set_p m σ);
      Return (Some (σ', timer))
  end.

(** ** Runs of the manager *)

(** The calls a client of a manager makes, with what each one is given. *)
Inductive call : Type :=
  | CallGetSession (rnd : RandRead) (w : http.ResponseWriter)
      (r : http.Request) (sessionid : string)
  | CallGetSessionById (sid : string)
  | CallSessionUpdate (sid : string)
  | CallSessionDestroy (w : http.ResponseWriter) (r : http.Request)
  | CallSessionDestroyById (sid : string)
  | CallGc.

(** The state a call leaves. *)
Definition exec (c : call) (σ : State) : outcome State :=
  match c with
  | CallGetSession rnd w r sessionid =>
      '(_, _, _, _, σ') ← GetSession rnd w r sessionid σ; Return σ'
  | CallGetSessionById sid =>
      '(_, _, σ') ← GetSessionById sid σ; Return σ'
  | CallSessionUpdate sid => SessionUpdate sid σ
  | CallSessionDestroy w r =>
      '(_, _, σ') ← SessionDestroy w r σ; Return σ'
  | CallSessionDestroyById sid => SessionDestroyById sid σ
  | CallGc => '(σ', _, _) ← gc σ; Return σ'
  end.

(** The states of a manager built by [NewSessionManager] and then used
    through the calls above while time passes. *)
Inductive reachable : State -> Prop :=
  | reach_new c σ0 σ timer :
      NewSessionManager (Some c) σ0 = Return (Some (σ, timer)) ->
      reachable σ
  | reach_call c σ σ' :
      reachable σ -> exec c σ = Return σ' -> reachable σ'
  | reach_tick d σ :
      reachable σ -> reachable (tick d σ).

(** The identifiers indexed by the map, and those of the stores the
    entries of the recency list carry. *)
Definition map_ids (σ : State) : gset string :=
  match sessions (p σ) with
  | Some m => dom m
  | None => ∅
  end.

Definition list_stores (σ : State) : list SessionStore :=
  (fun e => heap σ (golist.Value e)) <$> default [] (list_ (p σ)).

Definition list_ids (σ : State) : gset string :=
  list_to_set (store_id <$> list_stores σ).

(** ** A concrete manager, for examples *)

Definition memory_registry : gmap string SessionStoreType :=
  {[ "memory"%string := NewMemoryStore ]}.

Definition demo_config : Config :=
  mkConfig "example.org" "memory" "sid" 2 (-1) "".

Definition blank : State :=
  mkState (mkSessionManager "" "" "" 0 0 "" None None None false)
    (fun _ => mkStore "" 0 0 false) 0 0 memory_registry 100.

Definition demo : State :=
  match NewSessionManager (Some demo_config) blank with
  | Return (Some (σ, _)) => σ
  | _ => blank
  end.

(** ** Invariants of a run *)

(** The map and the list describe the same sessions: no element and no
    store occurs twice in the list, what the list holds has been allocated,
    and the map sends exactly the identifier of each store in the list to
    the element that carries it. *)
Record tables_ok (σ : State) (m : gmap string golist.Element)
    (l : golist.List) : Prop := mk_tables_ok {
  ok_eaddr : NoDup (golist.eaddr <$> l);
  ok_value : NoDup (golist.Value <$> l);
  ok_alloc : forall e, e ∈ l ->
    (golist.eaddr e < ebrk σ)%nat /\ (golist.Value e < brk σ)%nat;
  ok_index : forall sid e,
    m !! sid = Some e <-> e ∈ l /\ store_id (heap σ (golist.Value e)) = sid
}.

Definition consistent (σ : State) : Prop :=
  exists m l,
    sessions (p σ) = Some m /\ list_ (p σ) = Some l /\
    destroied (p σ) = false /\ prepireRelease (p σ) = None /\
    tables_ok σ m l.

(** Every registered factory builds stores that are last active at the
    time of their construction. *)
Definition stamping (reg : gmap string SessionStoreType) : Prop :=
  forall name newFunc config t st,
    reg !! name = Some newFunc -> newFunc config t = inl st ->
    store_active st = t.

(** The last-active times along the list, front first. *)
Definition list_actives (σ : State) : list Z := store_active <$> list_stores σ.

Definition ordered (σ : State) : Prop :=
  StronglySorted Z.le (list_actives σ) /\
  Forall (fun a => a <= now σ) (list_actives σ).

(** The store at the back of the recency list. *)
Definition back (σ : State) : option nat :=
  golist.Value <$> last (default [] (list_ (p σ))).

(** The working identifier as section 4.3 of the specification words it:
    the unescaped value of a non-empty cookie, else the requested
    identifier when there is one, else a generated one; the flag says
    that a response cookie is to be written. *)
Definition spec_working_id (cookie_name : string) (rnd : RandRead)
    (r : http.Request) (requested : string) : string * option error * bool :=
  match http.CookieOf r cookie_name with
  | Some c =>
      if decide (http.Value c = EmptyString) then
        if decide (requested = EmptyString) then (sessionId rnd, true)
        else (requested, None, true)
      else (url.QueryUnescape (http.Value c), false)
  | None =>
      if decide (requested = EmptyString) then (sessionId rnd, true)
      else (requested, None, true)
  end.

(** The cookie with which [SessionDestroy] clears the client's. *)
Definition clearing_cookie (σ : State) : http.Cookie :=
  http.mkCookie (CookieName (p σ)) "" "/" "" (Some (now σ)) (-1) true.

(** The demonstration manager after a first lookup of the identifier
    [abc], and a request that carries that identifier in its cookie. *)
Definition demo_abc : State :=
  match GetSessionById "abc" demo with
  | Return (_, _, σ) => σ
  | _ => demo
  end.

Definition request_abc : http.Request :=
  [http.mkCookie "sid" "abc" "" "" None 0 false].

(** A manager whose idle timeout is the largest [int64], with one session
    created at time 100. *)
Definition forever_config : Config :=
  mkConfig "example.org" "memory" "sid" 9223372036854775807 (-1) "".

Definition forever_abc : State :=
  match NewSessionManager (Some forever_config) blank with
  | Return (Some (σ, _)) =>
      match GetSessionById "abc" σ with
      | Return (_, _, σ') => σ'
      | _ => σ
      end
  | _ => blank
  end.

(** The demonstration manager two seconds later, after a run of [gc]. *)
Definition demo_swept : State :=
  match gc (tick 2 demo_abc) with
  | Return (σ, _, _) => σ
  | _ => demo_abc
  end.

(** A run: calls, and waits of so many seconds between them. *)
Inductive step : Type :=
  | Call (c : call)
  | Wait (d : nat).

Fixpoint run (steps : list step) (σ : State) : outcome State :=
  match steps with
  | [] => Return σ
  | Call c :: rest => σ' ← exec c σ; run rest σ'
  | Wait d :: rest => run rest (tick d σ)
  end.

(** The scenario of section 8 of the specification, with a second client:
    a first request without a cookie, a second one a second later that
    echoes the cookie, another session by identifier, an explicit release,
    and a run of [gc] three seconds later. *)
Definition demo_rnd : RandRead := mkRandRead (replicate 24 Byte.xab) 24 false.

Definition demo_cookie : http.Cookie :=
  http.mkCookie "sid" "abababababababababababababababababababababababab" "/"
    "example.org" None 0 false.

(** The cookie as a request echoes it: name and value only. *)
Definition demo_echo : http.Request :=
  [http.mkCookie "sid" "abababababababababababababababababababababababab" ""
     "" None 0 false].

Definition demo_steps : list step :=
  [ Call (CallGetSession demo_rnd [] [] "");
    Wait 1;
    Call (CallGetSessionById "worker");
    Call (CallGetSession demo_rnd [] demo_echo "");
    Call (CallSessionDestroyById "worker");
    Wait 1;
    Call (CallSessionUpdate "worker");
    Wait 1 ].

Definition demo_busy : State :=
  match run demo_steps demo with
  | Return σ => σ
  | _ => demo
  end.

(** A factory that leaves the last-active time of a new store at zero, and
    a manager built on it: a session, a refresh, a second session. *)
Definition stale_registry : gmap string SessionStoreType :=
  {[ "memory"%string := fun _ _ => inl (mkStore "" 0 0 false) ]}.

Definition stale_busy : State :=
  match
    run [ Call (CallGetSessionById "a"); Call (CallSessionUpdate "a");
          Call (CallGetSessionById "b") ]
      (mkState (p demo) (heap demo) (brk demo) (ebrk demo) stale_registry
         (now demo))
  with
  | Return σ => σ
  | _ => demo
  end.

(** ** The default manager *)

(** The package with its variable [defaultSessionManager] ([None]: nil):
    besides the variable, what a [State] holds around a manager. *)
Record Package : Type := mkPackage {
  defaultSessionManager : option SessionManager;
  pkg_heap : nat -> SessionStore;
  pkg_brk : nat;
  pkg_ebrk : nat;
  pkg_stores : gmap string SessionStoreType;
  pkg_now : Z
}.

(** The state a method of manager [m] runs in, and the package it leaves. *)
Definition enter (m : SessionManager) (k : Package) : State :=
  mkState m (pkg_heap k) (pkg_brk k) (pkg_ebrk k) (pkg_stores k) (pkg_now k).

Definition leave (σ : State) : Package :=
  mkPackage (Some (p σ)) (heap σ) (brk σ) (ebrk σ) (stores σ) (now σ).

(** [&SessionManager{}] *)
Definition zero_manager : SessionManager :=
  mkSessionManager "" "" "" 0 0 "" None None None false.

(** [InitDefaultSessionManager(conf)]: the package it leaves, the manager
    the variable pointed to before, as [Destroy] left it, and the timer the
    new manager armed. *)
Definition InitDefaultSessionManager (conf : option Config) (k : Package)
  : outcome (Package * option SessionManager * option Z) :=
  let previous :=
    (fun m => p (Destroy (enter m k))) <$> defaultSessionManager k in
  made ← NewSessionManager conf (enter zero_manager k);
  match made with
  | None =>
      Return (mkPackage None (pkg_heap k) (pkg_brk k) (pkg_ebrk k)
                (pkg_stores k) (pkg_now k), previous, None)
  | Some (σ, timer) => Return (leave σ, previous, timer)
  end.

(** The functions of the package forward to the methods of
    [defaultSessionManager].  A method entered through the nil pointer
    panics at its first access to a field of the receiver. *)
Module facade.

Definition nil_receiver {A : Type} : outcome A :=
  Panic "invalid memory address or nil pointer dereference".

Definition GetSession (rnd : RandRead) (w : http.ResponseWriter)
    (r : http.Request) (sid : string) (k : Package)
  : outcome (option nat * option error * http.ResponseWriter * http.Request
             * Package) :=
  match defaultSessionManager k with
  | None => nil_receiver
  | Some m =>
      '(session, err, w', r', σ) ← GetSession rnd w r sid (enter m k);
      Return (session, err, w', r', leave σ)
  end.

(** The test of line 183 precedes every access to the receiver. *)
Definition GetSessionById (sid : string) (k : Package)
  : outcome (option nat * option error * Package) :=
  match defaultSessionManager k with
  | None => if String.eqb sid "" then Return (None, None, k) else nil_receiver
  | Some m =>
      '(session, err, σ) ← GetSessionById sid (enter m k);
      Return (session, err, leave σ)
  end.

Definition SessionDestroy (w : http.ResponseWriter) (r : http.Request)
    (k : Package) : outcome (string * http.ResponseWriter * Package) :=
  match defaultSessionManager k with
  | None => nil_receiver
  | Some m =>
      '(sid, w', σ) ← SessionDestroy w r (enter m k);
      Return (sid, w', leave σ)
  end.

Definition SessionDestroyById (sid : string) (k : Package) : outcome Package :=
  match defaultSessionManager k with
  | None => nil_receiver
  | Some m => σ ← SessionDestroyById sid (enter m k); Return (leave σ)
  end.

Definition SessionUpdate (sid : string) (k : Package) : outcome Package :=
  match defaultSessionManager k with
  | None => nil_receiver
  | Some m => σ ← SessionUpdate sid (enter m k); Return (leave σ)
  end.

Definition SetPrepireRelease (pf : option PrepireReleaseFunc) (k : Package)
  : outcome Package :=
  match defaultSessionManager k with
  | None => nil_receiver
  | Some m => Return (leave (SetPrepireRelease pf (enter m k)))
  end.

End facade.

(** ** Vocabulary of the statements about identifiers *)

(** A digit of [0123456789abcdef]. *)
Definition is_lower_hex (c : ascii) : bool :=
  let n := N_of_ascii c in
  ((48 <=? n) && (n <=? 57) || (97 <=? n) && (n <=? 102))%N.

Fixpoint all_chars (P : ascii -> bool) (s : string) : bool :=
  match s with
  | EmptyString => true
  | String c rest => P c && all_chars P rest
  end.

(** The buffer [b] of [sessionId] after the read. *)
Definition rand_bytes (rnd : RandRead) : list Byte.byte :=
  take 24 (rand_buf rnd ++ replicate 24 Byte.x00).

(** ** Vocabulary of the statements about cookies *)

(** The shape of a cookie [GetSession] hands to the client: the manager's
    name and domain, path [/], no expiry, and a MaxAge only for a
    non-negative [CookieExpire]. *)
Definition session_cookie_shape (q : SessionManager) (ck : http.Cookie) : Prop :=
  http.Name ck = CookieName q /\ http.Path ck = "/"%string /\
  http.Domain ck = Domain q /\ http.Expires ck = None /\
  http.HttpOnly ck = false /\
  http.MaxAge ck = (if 0 <=? CookieExpire q then CookieExpire q else 0).

(** The request carries a cookie of the manager's name with a value. *)
Definition has_cookie (q : SessionManager) (r : http.Request) : Prop :=
  exists c, http.CookieOf r (CookieName q) = Some c /\
            http.Value c ≠ EmptyString.

(** The demonstration manager after the first request of a client, one
    without a cookie and without a requested identifier. *)
Definition demo_first : State :=
  match GetSession demo_rnd [] [] "" demo with
  | Return (_, _, _, _, σ) => σ
  | _ => demo
  end.

(** ** Vocabulary of the statements about [gc] *)

(** What line 270 does to a store: the callback when one is set. *)
Definition callback (q : SessionManager) (st : SessionStore) : SessionStore :=
  match prepireRelease q with
  | Some pf => pf st
  | None => st
  end.

(** The last-active time of the store an element carries. *)
Definition active_of (σ : State) (e : golist.Element) : Z :=
  store_active (heap σ (golist.Value e)).

(** A callback that marks the store it is handed (it zeroes the creation
    time), and the demonstration manager with that callback set, two
    seconds after the lookup of [abc]. *)
Definition mark_store : PrepireReleaseFunc :=
  fun st => mkStore (store_id st) 0 (store_active st) (store_released st).

Definition demo_marking : State :=
  SetPrepireRelease (Some mark_store) (tick 2 demo_abc).

Definition demo_marked : State :=
  match gc demo_marking with
  | Return (σ, _, _) => σ
  | _ => demo_marking
  end.

(** The busy demonstration manager after a run of [gc]. *)
Definition demo_busy_swept : State :=
  match gc demo_busy with
  | Return (σ, _, _) => σ
  | _ => demo_busy
  end.

(** The package of the demonstration: no default manager at first, then
    the manager of [demo_config] with a session [abc]. *)
Definition demo_package : Package :=
  mkPackage None (heap blank) (brk blank) (ebrk blank) (stores blank)
    (now blank).

Definition demo_package_abc : Package :=
  match InitDefaultSessionManager (Some demo_config) demo_package with
  | Return (k, _, _) =>
      match facade.GetSessionById "abc" k with
      | Return (_, _, k') => k'
      | _ => k
      end
  | _ => demo_package
  end.

(** * Properties *)

#[global] Arguments evict : simpl never.
#[global] Arguments touch : simpl never.
#[global] Arguments update : simpl never.
#[global] Arguments http.SetCookie : simpl never.
#[global] Arguments http.AddCookie : simpl never.

(** ** The registry *)

Lemma RegisterSessionStore_fresh name f (reg : gmap string SessionStoreType) :
  reg !! name = None ->
  RegisterSessionStore name (Some f) reg = Return (<[name := f]> reg).
Proof. intros H. unfold RegisterSessionStore. by rewrite H. Qed.

(** C8: registration panics exactly when the factory is nil or the name is
    taken; in every other case it returns the registry extended with the
    factory under that name, all other names untouched. *)
Theorem RegisterSessionStore_panics_or_adds
    (name : string) (one : option SessionStoreType)
    (reg : gmap string SessionStoreType) :
  ((one = None \/ is_Some (reg !! name)) <->
     exists msg, RegisterSessionStore name one reg = Panic msg) /\
  (forall f, one = Some f -> reg !! name = None ->
     exists reg',
       RegisterSessionStore name one reg = Return reg' /\
       reg' !! name = Some f /\
       forall other, other ≠ name -> reg' !! other = reg !! other).
Proof.
  split.
  - split.
    + intros [-> | [g Hg]]; [by eexists |].
      unfold RegisterSessionStore. rewrite Hg. destruct one; by eexists.
    + intros [msg H]. unfold RegisterSessionStore in H.
      destruct one as [f |]; [| by left].
      destruct (reg !! name) eqn:E; [right; by eexists | discriminate].
  - intros f -> Hfree. exists (<[name := f]> reg).
    split; [by apply RegisterSessionStore_fresh |].
    split; [apply lookup_insert_eq |].
    intros other Hne. by apply lookup_insert_ne.
Qed.

(** The scenario of the specification: a second store type under the name
    of the first. *)
Example RegisterSessionStore_twice :
  (reg ← RegisterSessionStore "memory" (Some NewMemoryStore) ∅;
   RegisterSessionStore "memory" (Some NewMemoryStore) reg)
  = Panic "Register SessionStore duplicate for memory".
Proof. reflexivity. Qed.

(** ** Identifier-addressed lookup *)

(** C10: the empty identifier yields no session and no error; no store is
    allocated, no store is written, and the map and the recency list are
    the ones before the call. *)
Theorem GetSessionById_empty (σ : State) :
  exists σ',
    GetSessionById "" σ = Return (None, None, σ') /\
    brk σ' = brk σ /\
    (forall a, heap σ' a = heap σ a) /\
    sessions (p σ') = sessions (p σ) /\
    list_ (p σ') = list_ (p σ) /\
    σ' = σ.
Proof. exists σ. unfold GetSessionById. simpl. repeat split. Qed.

(** ** Logout *)

Lemma update_p a f σ : p (update a f σ) = p σ.
Proof. reflexivity. Qed.

Lemma update_heap_same a f σ : heap (update a f σ) a = f (heap σ a).
Proof. unfold update; simpl. by rewrite decide_True. Qed.

Lemma update_heap_other a b f σ : b ≠ a -> heap (update a f σ) b = heap σ b.
Proof. intros H. unfold update; simpl. by rewrite decide_False. Qed.

Lemma QueryUnescape_ok s t :
  url.QueryUnescape s = (t, None) -> url.unescape s = inl t.
Proof.
  unfold url.QueryUnescape. destruct (url.unescape s); intros H; by inversion H.
Qed.

(** C7: without a cookie, or with an empty one, [SessionDestroy] returns
    the empty identifier and changes neither the response nor the state;
    with a non-empty cookie it returns the string [QueryUnescape] yields
    for the value, appends the clearing cookie (empty value, expiry now,
    MaxAge -1) to the response whether or not the identifier is indexed,
    leaves the manager's map and list alone, and releases the indexed
    store when there is one. *)
Theorem SessionDestroy_clears (w : http.ResponseWriter) (r : http.Request)
    (σ : State) :
  ((http.CookieOf r (CookieName (p σ)) = None \/
    exists c, http.CookieOf r (CookieName (p σ)) = Some c /\
              http.Value c = EmptyString) ->
   SessionDestroy w r σ = Return (EmptyString, w, σ)) /\
  (forall c, http.CookieOf r (CookieName (p σ)) = Some c ->
     http.Value c ≠ EmptyString ->
     exists σ',
       SessionDestroy w r σ =
         Return (fst (url.QueryUnescape (http.Value c)),
                 http.SetCookie w (clearing_cookie σ), σ') /\
       (forall sid, url.QueryUnescape (http.Value c) = (sid, None) ->
          fst (url.QueryUnescape (http.Value c)) = sid) /\
       http.Value (clearing_cookie σ) = EmptyString /\
       http.MaxAge (clearing_cookie σ) = -1 /\
       http.Expires (clearing_cookie σ) = Some (now σ) /\
       p σ' = p σ /\
       match lookup_session (fst (url.QueryUnescape (http.Value c))) σ with
       | Some session =>
           heap σ' (golist.Value session) =
             Release (heap σ (golist.Value session)) /\
           store_released (heap σ' (golist.Value session)) = true /\
           forall b, b ≠ golist.Value session -> heap σ' b = heap σ b
       | None => σ' = σ
       end).
Proof.
  split.
  - intros [H | (c & H & Hv)]; unfold SessionDestroy; rewrite H; [done |].
    by rewrite Hv.
  - intros c H Hv. unfold SessionDestroy. rewrite H.
    destruct (String.eqb_spec (http.Value c) "") as [E | _]; [done |].
    eexists. split; [reflexivity |].
    split; [intros sid Hs; by rewrite Hs |].
    repeat (split; [reflexivity |]).
    destruct (lookup_session _ σ) as [session |]; [| done].
    split; [reflexivity |].
    rewrite update_heap_same.
    repeat split. intros b Hb. by apply update_heap_other.
Qed.

(** ** The working identifier of [GetSession] *)

Lemma resolve_id_spec q rnd r sessionid :
  (let '(sid, err, writeCookie, _) := resolve_id q rnd r sessionid in
   (sid, err, writeCookie))
  = spec_working_id (CookieName q) rnd r sessionid.
Proof.
  unfold resolve_id, spec_working_id.
  destruct (http.CookieOf r (CookieName q)) as [c |].
  - destruct (String.eqb_spec (http.Value c) "") as [E | E].
    + rewrite decide_True by done.
      destruct (String.eqb_spec sessionid "") as [E' | E'].
      * rewrite decide_True by done. by destruct (sessionId rnd).
      * by rewrite decide_False.
    + rewrite decide_False by done. by destruct (url.QueryUnescape _).
  - destruct (String.eqb_spec sessionid "") as [E' | E'].
    + rewrite decide_True by done. by destruct (sessionId rnd).
    + by rewrite decide_False.
Qed.

Lemma resolve_id_cookie q rnd r sessionid sid err :
  resolve_id q rnd r sessionid ≠ (sid, err, false, None).
Proof.
  unfold resolve_id. destruct (http.CookieOf r (CookieName q)) as [c |].
  - destruct (String.eqb (http.Value c) "").
    + destruct (String.eqb sessionid ""); [destruct (sessionId rnd) |]; congruence.
    + destruct (url.QueryUnescape _). congruence.
  - destruct (String.eqb sessionid ""); [destruct (sessionId rnd) |]; congruence.
Qed.

Lemma lookup_session_touch sid sess σ :
  lookup_session sid (touch sess σ) = lookup_session sid σ.
Proof. reflexivity. Qed.

Lemma create_returns sid σ session err σ' :
  create sid σ = Return (session, err, σ') ->
  match err with
  | Some _ => session = None /\ σ' = σ
  | None =>
      exists e, session = Some (golist.Value e) /\
                lookup_session sid σ' = Some e /\
                golist.Value e = brk σ /\ brk σ' = S (brk σ)
  end.
Proof.
  unfold create. destruct (newSessionStore _ _ σ) as [st | e]; simpl.
  - destruct (list_ (p σ)) as [l |]; [| discriminate].
    destruct (sessions (p σ)) as [m |] eqn:Hm; [| discriminate].
    intros H; inversion H; subst; clear H.
    exists (golist.mkElement (ebrk σ) (brk σ)).
    split; [reflexivity |]. split; [| done].
    unfold lookup_session; simpl. apply lookup_insert_eq.
  - intros H; by inversion H.
Qed.

(** C6: the identifier [GetSession] works with is the one the
    specification's cascade gives (cookie first, even when an identifier
    is requested; then the requested identifier; then a generated one), an
    error of that step is returned as it is, the session returned is the
    one indexed under that identifier afterwards, and the response gets a
    cookie only when the flag of the no-cookie cases is set, then one
    carrying the escaped identifier. *)
Theorem GetSession_working_id (rnd : RandRead) (w : http.ResponseWriter)
    (r : http.Request) (sessionid : string) (σ : State) :
  (let '(sid, err, writeCookie, _) := resolve_id (p σ) rnd r sessionid in
   (sid, err, writeCookie))
  = spec_working_id (CookieName (p σ)) rnd r sessionid /\
  match spec_working_id (CookieName (p σ)) rnd r sessionid with
  | (_, Some e, _) =>
      GetSession rnd w r sessionid σ = Return (None, Some e, w, r, σ)
  | (sid, None, writeCookie) =>
      forall session w' r' σ',
        GetSession rnd w r sessionid σ = Return (Some session, None, w', r', σ') ->
        (exists e, lookup_session sid σ' = Some e /\ golist.Value e = session) /\
        (w' = w \/
         writeCookie = true /\
         exists c, w' = http.SetCookie w c /\
                   http.Value c = url.QueryEscape sid)
  end.
Proof.
  split; [apply resolve_id_spec |].
  pose proof (resolve_id_spec (p σ) rnd r sessionid) as Hspec.
  unfold GetSession.
  destruct (resolve_id (p σ) rnd r sessionid) as [[[sid err] writeCookie] cookie].
  rewrite <- Hspec. destruct err as [e |]; [done |].
  intros session w' r' σ'.
  destruct (lookup_session sid σ) as [sess |] eqn:Hhit.
  - intros H; inversion H; subst; clear H.
    split; [| by left]. exists sess. by rewrite lookup_session_touch.
  - destruct (create sid σ) as [[[s1 e1] σ1] | msg |] eqn:Hc; simpl; try done.
    apply create_returns in Hc.
    destruct e1 as [e1 |]; [done |].
    destruct Hc as (e & -> & Hlook & _).
    destruct writeCookie; simpl.
    + intros H; inversion H; subst; clear H.
      split; [by exists e |]. right. split; [done |]. by eexists.
    + destruct cookie as [c |]; [| done].
      intros H; inversion H; subst; clear H.
      split; [by exists e | by left].
Qed.

(** ** After [Destroy] *)

Lemma lookup_session_Destroy sid σ : lookup_session sid (Destroy σ) = None.
Proof. reflexivity. Qed.

Lemma create_Destroy sid σ :
  create sid (Destroy σ) =
    match newSessionStore (StoreType (p σ)) (StoreConfig (p σ)) σ with
    | inr e => Return (None, Some e, Destroy σ)
    | inl _ => Panic "invalid memory address or nil pointer dereference"
    end.
Proof.
  unfold create, newSessionStore; simpl.
  by destruct (stores σ !! StoreType (p σ)) as [f |]; [destruct (f _ _) |].
Qed.

(** C3, the violation: on a destroyed manager whose store type is
    registered, a lookup by a new identifier panics in [PushBack] on the
    nil list, through [GetSessionById] and through [GetSession]. *)
Lemma Destroy_then_get_panics :
  GetSessionById "abc" (Destroy demo)
    = Panic "invalid memory address or nil pointer dereference" /\
  GetSession (mkRandRead [] 0 false) [] [] "abc" (Destroy demo)
    = Panic "invalid memory address or nil pointer dereference".
Proof. split; reflexivity. Qed.

(** C3, amended: after [Destroy] a run of [gc] evicts nothing and arms no
    timer; [SessionUpdate], [SessionDestroyById] and [SessionDestroy]
    return and leave the state as it is; [GetSessionById] and [GetSession]
    return without a session when the identifier is empty, cannot be
    determined, or the store cannot be created, and panic as soon as the
    store has been created. *)
Theorem after_Destroy (σ : State) :
  gc (Destroy σ) = Return (Destroy σ, None, []) /\
  (forall sid, SessionUpdate sid (Destroy σ) = Return (Destroy σ)) /\
  (forall sid, SessionDestroyById sid (Destroy σ) = Return (Destroy σ)) /\
  (forall w r, exists sid w',
     SessionDestroy w r (Destroy σ) = Return (sid, w', Destroy σ)) /\
  (forall sid,
     GetSessionById sid (Destroy σ) =
       if decide (sid = EmptyString) then Return (None, None, Destroy σ)
       else
         match newSessionStore (StoreType (p σ)) (StoreConfig (p σ)) σ with
         | inr e => Return (None, Some e, Destroy σ)
         | inl _ => Panic "invalid memory address or nil pointer dereference"
         end) /\
  (forall rnd w r sessionid,
     GetSession rnd w r sessionid (Destroy σ) =
       match spec_working_id (CookieName (p σ)) rnd r sessionid with
       | (_, Some e, _) => Return (None, Some e, w, r, Destroy σ)
       | (_, None, _) =>
           match newSessionStore (StoreType (p σ)) (StoreConfig (p σ)) σ with
           | inr e => Return (None, Some e, w, r, Destroy σ)
           | inl _ => Panic "invalid memory address or nil pointer dereference"
           end
       end).
Proof.
  split; [reflexivity |].
  split; [reflexivity |].
  split; [reflexivity |].
  split.
  { intros w r. unfold SessionDestroy.
    destruct (http.CookieOf r _) as [c |]; [| by do 2 eexists].
    destruct (String.eqb (http.Value c) ""); by do 2 eexists. }
  split.
  - intros sid. unfold GetSessionById.
    destruct (String.eqb_spec sid "") as [E | E].
    + by rewrite decide_True.
    + rewrite decide_False by done.
      rewrite lookup_session_Destroy. apply create_Destroy.
  - intros rnd w r sessionid.
    pose proof (resolve_id_spec (p (Destroy σ)) rnd r sessionid) as Hspec.
    unfold GetSession.
    destruct (resolve_id (p (Destroy σ)) rnd r sessionid)
      as [[[sid err] writeCookie] cookie].
    change (CookieName (p (Destroy σ))) with (CookieName (p σ)) in Hspec.
    rewrite <- Hspec. destruct err as [e |]; [done |].
    rewrite lookup_session_Destroy, create_Destroy.
    by destruct (newSessionStore _ _ σ).
Qed.

(** ** The reclamation loop *)

Lemma gc_loop_destroied fuel : forall sleep log σ σ' sleep' log',
  gc_loop fuel sleep log σ = Return (σ', sleep', log') ->
  destroied (p σ') = destroied (p σ).
Proof.
  induction fuel as [| fuel IH]; intros sleep log σ σ' sleep' log'; simpl.
  - destruct (destroied (p σ)) eqn:D; [| discriminate].
    intros H; inversion H; by subst.
  - destruct (destroied (p σ)) eqn:D.
    { intros H; inversion H; by subst. }
    destruct (list_ (p σ)) as [l |]; [| discriminate].
    destruct (golist.Front l) as [element |].
    + destruct (_ >? _).
      * intros H; inversion H; by subst.
      * intros H. apply IH in H. rewrite H.
        unfold evict; simpl. by destruct (prepireRelease (p σ)).
    + intros H; inversion H; by subst.
Qed.

Lemma gc_loop_sleep_kept fuel : forall sleep log σ σ' sleep' log',
  gc_loop fuel sleep log σ = Return (σ', sleep', log') ->
  list_ (p σ') = Some [] -> sleep' = sleep.
Proof.
  induction fuel as [| fuel IH]; intros sleep log σ σ' sleep' log'; simpl.
  - destruct (destroied (p σ)); [| discriminate].
    intros H; inversion H; by subst.
  - destruct (destroied (p σ)).
    { intros H; inversion H; by subst. }
    destruct (list_ (p σ)) as [l |] eqn:Hl; [| discriminate].
    destruct (golist.Front l) as [element |] eqn:Hf.
    + destruct (_ >? _).
      * intros H; inversion H; subst. rewrite Hl. intros [= ->]. discriminate.
      * intros H Hempty. by eapply IH.
    + intros H; inversion H; by subst.
Qed.

(** C2, the violation: a manager that is not destroyed and whose recency
    list is empty leaves [gc] with a timer armed, ten seconds ahead. *)
Lemma gc_empty_list_rearms :
  list_ (p demo) = Some [] /\
  exists σ', gc demo = Return (σ', Some 10000000000, []).
Proof. split; [reflexivity |]. eexists. reflexivity. Qed.

(** C2, amended: when [gc] sees the empty list it leaves the loop without
    an eviction, and a run of [gc] that ends on the empty list arms a timer
    for the default ten seconds (in nanoseconds) unless the manager is
    destroyed. *)
Theorem gc_rearms_on_empty_list (σ : State) :
  destroied (p σ) = false ->
  (list_ (p σ) = Some [] -> gc σ = Return (σ, Some 10000000000, [])) /\
  (forall σ' timer log,
     gc σ = Return (σ', timer, log) -> list_ (p σ') = Some [] ->
     timer = Some 10000000000).
Proof.
  intros D. split.
  - intros Hl. unfold gc. rewrite Hl; simpl. rewrite D, Hl; simpl. by rewrite D.
  - intros σ' timer log. unfold gc.
    destruct (gc_loop _ 10 [] σ) as [[[σ1 sleep] log1] | |] eqn:Hloop;
      simpl; try done.
    intros H; inversion H; subst; clear H. intros Hl.
    pose proof (gc_loop_destroied _ _ _ _ _ _ _ Hloop) as HD.
    rewrite HD, D.
    by rewrite (gc_loop_sleep_kept _ _ _ _ _ _ _ Hloop Hl).
Qed.

Lemma gc_rearms_on_empty_list_witness :
  destroied (p demo) = false /\
  gc demo = Return (demo, Some 10000000000, []).
Proof.
  split; [reflexivity |].
  apply (gc_rearms_on_empty_list demo); reflexivity.
Defined.

(** ** Explicit release keeps the entry *)

Lemma GetSession_cookie_hit rnd w r sessionid σ c sid e :
  http.CookieOf r (CookieName (p σ)) = Some c ->
  http.Value c ≠ EmptyString ->
  url.QueryUnescape (http.Value c) = (sid, None) ->
  lookup_session sid σ = Some e ->
  GetSession rnd w r sessionid σ
    = Return (Some (golist.Value e), None, w, r, touch e σ).
Proof.
  intros Hc Hv Hu Hl. unfold GetSession, resolve_id. rewrite Hc.
  destruct (String.eqb_spec (http.Value c) "") as [E | _]; [done |].
  rewrite Hu. by rewrite Hl.
Qed.

Lemma touch_heap_same e σ :
  heap (touch e σ) (golist.Value e) =
    fst (Active true (now σ) (heap σ (golist.Value e))).
Proof. unfold touch; simpl. by rewrite decide_True. Qed.

(** C9: when an identifier is indexed, [SessionDestroyById] and
    [SessionDestroy] (with a cookie carrying it) release the indexed store
    and leave the manager, its map and list included, as it was; a later
    [GetSessionById] or [GetSession] for that identifier returns that same
    store, still released, and allocates none. *)
Theorem destroy_keeps_entry (σ : State) (sid : string) (e : golist.Element)
    (rnd : RandRead) (w : http.ResponseWriter) (r : http.Request)
    (c : http.Cookie) :
  lookup_session sid σ = Some e ->
  sid ≠ EmptyString ->
  http.CookieOf r (CookieName (p σ)) = Some c ->
  http.Value c ≠ EmptyString ->
  url.QueryUnescape (http.Value c) = (sid, None) ->
  exists σ1 σ2,
    SessionDestroyById sid σ = Return σ1 /\
    SessionDestroy w r σ = Return (sid, http.SetCookie w (clearing_cookie σ), σ1) /\
    p σ1 = p σ /\ brk σ1 = brk σ /\
    store_released (heap σ1 (golist.Value e)) = true /\
    GetSessionById sid σ1 = Return (Some (golist.Value e), None, σ2) /\
    (forall sessionid,
       GetSession rnd w r sessionid σ1
         = Return (Some (golist.Value e), None, w, r, σ2)) /\
    brk σ2 = brk σ /\
    sessions (p σ2) = sessions (p σ) /\
    store_released (heap σ2 (golist.Value e)) = true.
Proof.
  intros Hl Hsid Hc Hv Hu.
  exists (update (golist.Value e) Release σ),
         (touch e (update (golist.Value e) Release σ)).
  assert (Hl1 : lookup_session sid (update (golist.Value e) Release σ) = Some e)
    by exact Hl.
  split; [unfold SessionDestroyById; by rewrite Hl |].
  split.
  { unfold SessionDestroy. rewrite Hc.
    destruct (String.eqb_spec (http.Value c) "") as [E | _]; [done |].
    rewrite Hu; simpl. by rewrite Hl. }
  split; [reflexivity |]. split; [reflexivity |].
  split; [by rewrite update_heap_same |].
  split.
  { unfold GetSessionById.
    destruct (String.eqb_spec sid "") as [E | _]; [done |]. by rewrite Hl1. }
  split.
  { intros sessionid. by apply GetSession_cookie_hit with (c := c) (sid := sid). }
  split; [reflexivity |]. split; [reflexivity |].
  rewrite touch_heap_same. simpl. by rewrite decide_True.
Qed.

Lemma destroy_keeps_entry_witness :
  exists σ1 σ2,
    SessionDestroyById "abc" demo_abc = Return σ1 /\
    SessionDestroy [] request_abc demo_abc
      = Return ("abc"%string, http.SetCookie [] (clearing_cookie demo_abc), σ1) /\
    p σ1 = p demo_abc /\ brk σ1 = brk demo_abc /\
    store_released (heap σ1 0%nat) = true /\
    GetSessionById "abc" σ1 = Return (Some 0%nat, None, σ2) /\
    (forall sessionid,
       GetSession (mkRandRead [] 0 false) [] request_abc sessionid σ1
         = Return (Some 0%nat, None, [], request_abc, σ2)) /\
    brk σ2 = brk demo_abc /\
    sessions (p σ2) = sessions (p demo_abc) /\
    store_released (heap σ2 0%nat) = true.
Proof.
  apply (destroy_keeps_entry demo_abc "abc" (golist.mkElement 0 0)
           (mkRandRead [] 0 false) [] request_abc
           (http.mkCookie "sid" "abc" "" "" None 0 false));
    first [reflexivity | discriminate].
Defined.

(** ** Evictions are never early *)

Lemma wrap64_in_range z : in_int64 z -> wrap64 z = z.
Proof.
  unfold in_int64, int64_min, int64_max, wrap64. intros H.
  rewrite Z.mod_small; lia.
Qed.

Lemma evict_p_now element σ :
  now (evict element σ) = now σ /\
  IdleTime (p (evict element σ)) = IdleTime (p σ) /\
  list_ (p (evict element σ)) = golist.Remove element <$> list_ (p σ).
Proof. unfold evict; simpl. by destruct (prepireRelease (p σ)). Qed.

Lemma evict_list element σ l :
  list_ (p σ) = Some l ->
  list_ (p (evict element σ)) = Some (golist.Remove element l).
Proof. intros H. destruct (evict_p_now element σ) as (_ & _ & ->). by rewrite H. Qed.

Lemma evict_heap_other element σ b :
  b ≠ golist.Value element -> heap (evict element σ) b = heap σ b.
Proof.
  intros H. unfold evict; simpl.
  rewrite decide_False by done.
  destruct (prepireRelease (p σ)); simpl; [by rewrite decide_False | done].
Qed.

Lemma evict_released element σ :
  store_released (heap (evict element σ) (golist.Value element)) = true.
Proof. unfold evict; simpl. by rewrite decide_True. Qed.

Lemma Remove_front element l :
  golist.Remove element (element :: l) = golist.Remove element l.
Proof. unfold golist.Remove. by rewrite filter_cons_False by naive_solver. Qed.

Lemma Remove_subseteq element l : golist.Remove element l ⊆ l.
Proof. intros x. unfold golist.Remove. rewrite list_elem_of_filter. tauto. Qed.

Lemma Remove_sublist element l : golist.Remove element l `sublist_of` l.
Proof. apply sublist_filter. Qed.

Lemma Remove_length element l :
  (length (golist.Remove element (element :: l)) <= length l)%nat.
Proof. rewrite Remove_front. apply length_filter. Qed.

(** The loop needs no more turns than the list has elements, plus one. *)
Lemma gc_loop_fuel fuel : forall sleep log σ,
  (length (default [] (list_ (p σ))) < fuel)%nat ->
  gc_loop fuel sleep log σ ≠ OutOfFuel.
Proof.
  induction fuel as [| fuel IH]; intros sleep log σ Hlen; [lia |].
  simpl. destruct (destroied (p σ)); [done |].
  destruct (list_ (p σ)) as [l |] eqn:Hl; [| done].
  destruct l as [| element l]; simpl; [done |].
  destruct (_ >? _); [done |].
  apply IH. rewrite (evict_list element σ _ Hl); simpl.
  pose proof (Remove_length element l). simpl in Hlen. lia.
Qed.

Lemma gc_total σ : gc σ ≠ OutOfFuel.
Proof.
  unfold gc.
  pose proof (gc_loop_fuel (S (length (default [] (list_ (p σ))))) 10 [] σ
                ltac:(lia)) as H.
  by destruct (gc_loop _ 10 [] σ) as [[[? ?] ?] | |].
Qed.

(** What a run of the loop adds to the log: each entry is for a store of
    the list, carries the last-active time that store had when the run
    began, is stamped with the clock, and passed the test of line 260;
    the store is released in the final state. *)
Lemma gc_loop_evictions fuel : forall sleep log σ σ' sleep' log' l,
  gc_loop fuel sleep log σ = Return (σ', sleep', log') ->
  list_ (p σ) = Some l ->
  NoDup (golist.Value <$> l) ->
  (forall b, b ∉ golist.Value <$> l -> heap σ' b = heap σ b) /\
  exists new,
    log' = log ++ new /\
    Forall (fun ev =>
              ev_store ev ∈ golist.Value <$> l /\
              ev_active ev = store_active (heap σ (ev_store ev)) /\
              ev_time ev = now σ /\
              add64 (ev_active ev) (IdleTime (p σ)) <= now σ /\
              store_released (heap σ' (ev_store ev)) = true) new.
Proof.
  induction fuel as [| fuel IH]; intros sleep log σ σ' sleep' log' l; simpl.
  - destruct (destroied (p σ)); [| discriminate].
    intros H; inversion H; subst. intros _ _. split; [done |].
    exists []. by rewrite app_nil_r.
  - destruct (destroied (p σ)).
    { intros H; inversion H; subst. intros _ _. split; [done |].
      exists []. by rewrite app_nil_r. }
    intros H Hl Hnd. rewrite Hl in H.
    destruct l as [| element l]; simpl in H.
    { inversion H; subst. split; [done |]. exists []. by rewrite app_nil_r. }
    destruct (_ >? _) eqn:Htest.
    { inversion H; subst. split; [done |]. exists []. by rewrite app_nil_r. }
    destruct (evict_p_now element σ) as (Hnow & Hidle & _).
    pose proof (evict_list element σ _ Hl) as Hlist.
    rewrite Remove_front in Hlist.
    rewrite fmap_cons in Hnd. apply NoDup_cons in Hnd as [Hfront Hnd].
    assert (Hsub : golist.Value <$> golist.Remove element l ⊆ golist.Value <$> l).
    { intros v (x & -> & Hx)%list_elem_of_fmap.
      apply list_elem_of_fmap. exists x. split; [done |].
      by apply Remove_subseteq in Hx. }
    destruct (IH _ _ _ _ _ _ _ H Hlist) as (Hframe & new & -> & Hnew).
    { eapply sublist_NoDup; [exact Hnd | apply fmap_sublist, Remove_sublist]. }
    assert (Hkeep : heap σ' (golist.Value element)
                    = heap (evict element σ) (golist.Value element)).
    { apply Hframe. intros Hin. by apply Hsub in Hin. }
    split.
    { intros b Hb. rewrite fmap_cons, not_elem_of_cons in Hb.
      destruct Hb as [Hb1 Hb2].
      rewrite Hframe by (intros Hin; by apply Hsub in Hin).
      by apply evict_heap_other. }
    eexists (_ :: new). split; [by rewrite <- app_assoc |].
    constructor.
    + simpl. split; [by left |].
      split; [done |]. split; [done |].
      split; [rewrite Z.gtb_ltb in Htest; by apply Z.ltb_ge in Htest |].
      rewrite Hkeep. apply evict_released.
    + eapply Forall_impl; [exact Hnew |]. cbv beta.
      intros ev (Hin & Hact & Htime & Hle & Hrel).
      apply Hsub in Hin.
      split; [simpl; by right |].
      rewrite Hnow in Htime. rewrite Hidle, Hnow in Hle.
      rewrite evict_heap_other in Hact by (intros E; rewrite E in Hin; done).
      done.
Qed.

(** C1, the failing run: a manager whose idle timeout is the largest
    [int64] holds one session, [abc], created and last active at time 100.
    A run of [gc] at time 100 adds 100 and the timeout in [int64] (line
    260); the sum wraps around to a negative number, the test does not
    leave the loop, and the session is released and removed from the map
    and the list at time 100, its idle timeout far from elapsed. *)
Theorem gc_evicts_early_on_overflow :
  reachable forever_abc /\
  IdleTime (p forever_abc) = int64_max /\
  now forever_abc = 100 /\
  lookup_session "abc" forever_abc = Some (golist.mkElement 0 0) /\
  list_ (p forever_abc) = Some [golist.mkElement 0 0] /\
  store_active (heap forever_abc 0%nat) = 100 /\
  store_released (heap forever_abc 0%nat) = false /\
  add64 100 (IdleTime (p forever_abc)) = -9223372036854775709 /\
  exists σ' timer,
    gc forever_abc = Return (σ', timer, [mkEviction 0 100 100]) /\
    now σ' = 100 /\
    store_released (heap σ' 0%nat) = true /\
    lookup_session "abc" σ' = None /\
    list_ (p σ') = Some [] /\
    100 < 100 + IdleTime (p forever_abc).
Proof.
  split.
  { destruct (NewSessionManager (Some forever_config) blank)
      as [[[σ0 timer] |] | |] eqn:Hnew; try by vm_compute in Hnew.
    apply (reach_call (CallGetSessionById "abc") σ0);
      [by apply (reach_new forever_config blank σ0 timer) |].
    unfold forever_abc. rewrite Hnew.
    injection Hnew as <- _. by vm_compute. }
  repeat (split; [by vm_compute |]).
  do 2 eexists. split; [by vm_compute |].
  repeat (split; [by vm_compute |]). by vm_compute.
Qed.

(** X22: what a run of [gc] records as evicted.  Every store it releases
    was carried by an entry of the recency list when the run began, has
    the last-active time it had then, is released when the run ends, and
    passed the test of line 260 at the time of the run: the [int64] sum of
    its last-active time and the idle timeout was at most the clock.
    Whenever that sum is in the range of [int64], the release comes no
    earlier than the idle timeout after the last activity. *)
Theorem gc_never_early (σ σ' : State) (timer : option Z)
    (log : list Eviction) (l : golist.List) :
  gc σ = Return (σ', timer, log) ->
  list_ (p σ) = Some l ->
  NoDup (golist.Value <$> l) ->
  forall ev, ev ∈ log ->
    ev_store ev ∈ golist.Value <$> l /\
    ev_active ev = store_active (heap σ (ev_store ev)) /\
    ev_time ev = now σ /\
    store_released (heap σ' (ev_store ev)) = true /\
    add64 (ev_active ev) (IdleTime (p σ)) <= ev_time ev /\
    (in_int64 (ev_active ev + IdleTime (p σ)) ->
     ev_active ev + IdleTime (p σ) <= ev_time ev).
Proof.
  unfold gc. intros H Hl Hnd.
  destruct (gc_loop _ 10 [] σ) as [[[σ1 sleep] log1] | |] eqn:Hloop;
    simpl in H; try done.
  inversion H; subst; clear H.
  destruct (gc_loop_evictions _ _ _ _ _ _ _ _ Hloop Hl Hnd)
    as (_ & new & -> & Hnew).
  intros ev Hev. simpl in Hev.
  rewrite Forall_forall in Hnew.
  destruct (Hnew ev Hev) as (Hin & Hact & Htime & Hle & Hrel).
  repeat (split; [done |]). rewrite Htime.
  split; [done |]. intros Hrange.
  unfold add64 in Hle. by rewrite wrap64_in_range in Hle.
Qed.

Lemma gc_never_early_witness :
  let ev := mkEviction 0 100 102 in
  ev_store ev ∈ golist.Value <$> [golist.mkElement 0 0] /\
  ev_active ev = store_active (heap (tick 2 demo_abc) (ev_store ev)) /\
  ev_time ev = now (tick 2 demo_abc) /\
  store_released (heap demo_swept (ev_store ev)) = true /\
  add64 (ev_active ev) (IdleTime (p (tick 2 demo_abc))) <= ev_time ev /\
  (in_int64 (ev_active ev + IdleTime (p (tick 2 demo_abc))) ->
   ev_active ev + IdleTime (p (tick 2 demo_abc)) <= ev_time ev).
Proof.
  intros ev.
  apply (gc_never_early (tick 2 demo_abc) demo_swept (Some 10000000000)
           [ev] [golist.mkElement 0 0]).
  - by vm_compute.
  - reflexivity.
  - apply NoDup_singleton.
  - by left.
Defined.

(** ** Moving and removing elements *)

Lemma Remove_other element l :
  Forall (fun x => golist.eaddr x ≠ golist.eaddr element) l ->
  golist.Remove element l = l.
Proof.
  unfold golist.Remove. induction 1 as [| x l Hx _ IH]; [done |].
  rewrite filter_cons_True by done. by rewrite IH.
Qed.

Lemma Remove_split l1 element l2 :
  NoDup (golist.eaddr <$> (l1 ++ element :: l2)) ->
  golist.Remove element (l1 ++ element :: l2) = l1 ++ l2.
Proof.
  rewrite fmap_app, fmap_cons. intros Hnd.
  apply NoDup_app in Hnd as (_ & Hdisj & Hnd2).
  apply NoDup_cons in Hnd2 as [Hnot _].
  assert (H1 : Forall (fun x => golist.eaddr x ≠ golist.eaddr element) l1).
  { apply Forall_forall. intros x Hx E.
    apply (Hdisj (golist.eaddr x)); [by apply list_elem_of_fmap_2 |].
    rewrite E. by left. }
  assert (H2 : Forall (fun x => golist.eaddr x ≠ golist.eaddr element) l2).
  { apply Forall_forall. intros x Hx E. apply Hnot. rewrite <- E.
    by apply list_elem_of_fmap_2. }
  unfold golist.Remove. rewrite filter_app, filter_cons_False by naive_solver.
  fold (golist.Remove element l1). fold (golist.Remove element l2).
  by rewrite !Remove_other.
Qed.

Lemma member_elem element l : element ∈ l -> golist.member element l = true.
Proof.
  intros H. unfold golist.member. apply bool_decide_eq_true.
  by apply list_elem_of_fmap_2.
Qed.

(** Moving an element of the list to the back takes it out of its place
    and appends it. *)
Lemma MoveToBack_split l1 element l2 :
  NoDup (golist.eaddr <$> (l1 ++ element :: l2)) ->
  golist.MoveToBack element (l1 ++ element :: l2) = (l1 ++ l2) ++ [element].
Proof.
  intros Hnd. unfold golist.MoveToBack.
  rewrite member_elem by (apply elem_of_app; right; by left).
  by rewrite Remove_split.
Qed.

Lemma MoveToBack_perm (l1 l2 : list golist.Element) (element : golist.Element) :
  (l1 ++ l2) ++ [element] ≡ₚ l1 ++ element :: l2.
Proof.
  rewrite <- app_assoc. apply Permutation_app_head.
  rewrite Permutation_app_comm. reflexivity.
Qed.

Lemma StronglySorted_snoc (l : list Z) (y : Z) :
  StronglySorted Z.le l -> Forall (fun x => x <= y) l ->
  StronglySorted Z.le (l ++ [y]).
Proof.
  induction 1 as [| x l Hl IH Hx]; intros Hy; simpl.
  - by repeat constructor.
  - apply Forall_cons in Hy as [Hxy Hy]. constructor; [by apply IH |].
    apply Forall_app. split; [done |]. by constructor.
Qed.

Lemma StronglySorted_drop (l1 l2 : list Z) (x : Z) :
  StronglySorted Z.le (l1 ++ x :: l2) -> StronglySorted Z.le (l1 ++ l2).
Proof.
  induction l1 as [| y l1 IH]; simpl; intros H.
  - by apply StronglySorted_inv in H as [? _].
  - apply StronglySorted_inv in H as [H Hy]. constructor; [by apply IH |].
    rewrite Forall_app in Hy |- *. destruct Hy as [? Hy].
    apply Forall_cons in Hy as [_ ?]. done.
Qed.

(** ** Identifiers are never empty *)

Lemma unescape_nonempty s t :
  url.unescape s = inl t -> s ≠ EmptyString -> t ≠ EmptyString.
Proof.
  destruct s as [| c rest]; [done |]. intros H _. simpl in H.
  destruct (Ascii.eqb c "%").
  - destruct rest as [| a [| b rest']]; try discriminate.
    destruct (url.ishex a && url.ishex b); [| discriminate].
    destruct (url.unescape rest'); [| discriminate]. by inversion H.
  - destruct (url.unescape rest); [| discriminate]. by inversion H.
Qed.

Lemma sessionId_nonempty rnd sid : sessionId rnd = (sid, None) -> sid ≠ EmptyString.
Proof.
  unfold sessionId.
  destruct (negb _ || rand_err rnd); [discriminate |].
  intros H; inversion H; clear H.
  assert (Hlen : length (take 24 (rand_buf rnd ++ replicate 24 Byte.x00)) = 24%nat).
  { rewrite length_take, length_app, length_replicate. lia. }
  by destruct (take 24 _).
Qed.

Lemma resolve_id_nonempty q rnd r sessionid sid writeCookie cookie :
  resolve_id q rnd r sessionid = (sid, None, writeCookie, cookie) ->
  sid ≠ EmptyString.
Proof.
  unfold resolve_id.
  assert (Hfb : forall ck,
    (if String.eqb sessionid "" then
       let '(sid, err) := sessionId rnd in (sid, err, true, ck)
     else (sessionid, None, true, ck)) = (sid, None, writeCookie, cookie) ->
    sid ≠ EmptyString).
  { intros ck. destruct (String.eqb_spec sessionid "") as [E | E].
    - destruct (sessionId rnd) as [s e] eqn:Hs. intros H; inversion H; subst.
      by eapply sessionId_nonempty.
    - intros H; inversion H; by subst. }
  destruct (http.CookieOf r (CookieName q)) as [c |]; [| apply Hfb].
  destruct (String.eqb_spec (http.Value c) "") as [E | E]; [apply Hfb |].
  destruct (url.QueryUnescape (http.Value c)) as [s e] eqn:Hu.
  intros H; inversion H; subst.
  apply QueryUnescape_ok in Hu. by eapply unescape_nonempty.
Qed.

Lemma Id_sets sid st : sid ≠ EmptyString -> store_id (fst (Id sid st)) = sid.
Proof.
  intros H. unfold Id. by destruct (String.eqb_spec sid "").
Qed.

Lemma Id_active sid st : store_active (fst (Id sid st)) = store_active st.
Proof. unfold Id. by destruct (String.eqb sid ""). Qed.

(** ** The bijection between map and list *)

Lemma tables_ok_ext σ σ' m l :
  ebrk σ' = ebrk σ -> brk σ' = brk σ ->
  (forall b, store_id (heap σ' b) = store_id (heap σ b)) ->
  tables_ok σ m l -> tables_ok σ' m l.
Proof.
  intros He Hb Hid [H1 H2 H3 H4]. constructor; try done.
  - intros e Hin. rewrite He, Hb. by apply H3.
  - intros sid e. rewrite Hid. apply H4.
Qed.

Lemma tables_ok_perm σ m (l l' : list golist.Element) :
  l' ≡ₚ l -> tables_ok σ m l -> tables_ok σ m l'.
Proof.
  intros Hp [H1 H2 H3 H4]. constructor.
  - by rewrite Hp.
  - by rewrite Hp.
  - intros e Hin. apply H3. by rewrite <- Hp.
  - intros sid e. rewrite H4. by rewrite Hp.
Qed.

Lemma touch_fields e σ :
  sessions (p (touch e σ)) = sessions (p σ) /\
  list_ (p (touch e σ)) = golist.MoveToBack e <$> list_ (p σ) /\
  destroied (p (touch e σ)) = destroied (p σ) /\
  prepireRelease (p (touch e σ)) = prepireRelease (p σ) /\
  brk (touch e σ) = brk σ /\ ebrk (touch e σ) = ebrk σ /\
  stores (touch e σ) = stores σ /\ now (touch e σ) = now σ /\
  (forall b, b ≠ golist.Value e -> heap (touch e σ) b = heap σ b) /\
  store_active (heap (touch e σ) (golist.Value e)) = now σ /\
  (forall b, store_id (heap (touch e σ) b) = store_id (heap σ b)).
Proof.
  unfold touch, update; simpl. repeat (split; [reflexivity |]).
  split; [intros b Hb; by rewrite decide_False |].
  split; [by rewrite decide_True |].
  intros b. destruct (decide (b = golist.Value e)) as [-> |]; done.
Qed.

Lemma touch_consistent sid e σ :
  consistent σ -> lookup_session sid σ = Some e -> consistent (touch e σ).
Proof.
  intros (m & l & Hm & Hl & Hd & Hcb & Hok) Hlook.
  unfold lookup_session in Hlook. rewrite Hm in Hlook.
  destruct (touch_fields e σ) as (Fm & Fl & Fd & Fcb & Fb & Fe & _ & _ & _ & _ & Fid).
  assert (Hin : e ∈ l) by (by apply (ok_index _ _ _ Hok) in Hlook as [? _]).
  apply list_elem_of_split in Hin as (l1 & l2 & ->).
  exists m, ((l1 ++ l2) ++ [e]).
  rewrite Fm, Fl, Fd, Fcb, Hl; simpl.
  rewrite MoveToBack_split by apply (ok_eaddr _ _ _ Hok).
  repeat (split; [done |]).
  eapply tables_ok_perm; [apply MoveToBack_perm |].
  by apply (tables_ok_ext σ).
Qed.

Lemma release_consistent a σ : consistent σ -> consistent (update a Release σ).
Proof.
  intros (m & l & Hm & Hl & Hd & Hcb & Hok). exists m, l.
  repeat (split; [done |]).
  apply (tables_ok_ext σ); [done | done | | done].
  intros b. unfold update; simpl. by destruct (decide (b = a)) as [-> |].
Qed.

Lemma create_fields sid σ session σ' m l :
  sessions (p σ) = Some m -> list_ (p σ) = Some l ->
  create sid σ = Return (session, None, σ') ->
  exists st,
    newSessionStore (StoreType (p σ)) (StoreConfig (p σ)) σ = inl st /\
    session = Some (brk σ) /\
    sessions (p σ') = Some (<[sid := golist.mkElement (ebrk σ) (brk σ)]> m) /\
    list_ (p σ') = Some (l ++ [golist.mkElement (ebrk σ) (brk σ)]) /\
    destroied (p σ') = destroied (p σ) /\
    prepireRelease (p σ') = prepireRelease (p σ) /\
    brk σ' = S (brk σ) /\ ebrk σ' = S (ebrk σ) /\
    stores σ' = stores σ /\ now σ' = now σ /\
    heap σ' (brk σ) = fst (Id sid st) /\
    (forall b, b ≠ brk σ -> heap σ' b = heap σ b).
Proof.
  intros Hm Hl. unfold create.
  destruct (newSessionStore _ _ σ) as [st | e]; [| discriminate].
  simpl. rewrite Hl, Hm. intros H; inversion H; subst; clear H. simpl.
  exists st. repeat (split; [reflexivity |]).
  split; [by rewrite decide_True |]. intros b Hb. by rewrite decide_False.
Qed.

Lemma create_consistent sid σ session err σ' :
  sid ≠ EmptyString -> consistent σ -> lookup_session sid σ = None ->
  create sid σ = Return (session, err, σ') -> consistent σ'.
Proof.
  intros Hsid (m & l & Hm & Hl & Hd & Hcb & Hok) Hnone Hc.
  destruct err as [e |].
  { apply create_returns in Hc as [_ ->]. by exists m, l. }
  unfold lookup_session in Hnone. rewrite Hm in Hnone.
  destruct (create_fields _ _ _ _ _ _ Hm Hl Hc)
    as (st & _ & _ & Fm & Fl & Fd & Fcb & Fb & Fe & _ & _ & Fnew & Fold).
  exists (<[sid := golist.mkElement (ebrk σ) (brk σ)]> m),
         (l ++ [golist.mkElement (ebrk σ) (brk σ)]).
  rewrite Fm, Fl, Fd, Fcb. repeat (split; [done |]).
  destruct Hok as [H1 H2 H3 H4]. constructor.
  - rewrite fmap_app. apply NoDup_app. split; [done |]. split; [| apply NoDup_singleton].
    intros a (x & -> & Hx)%list_elem_of_fmap Hin. simpl in Hin.
    apply list_elem_of_singleton in Hin. apply H3 in Hx. lia.
  - rewrite fmap_app. apply NoDup_app. split; [done |]. split; [| apply NoDup_singleton].
    intros a (x & -> & Hx)%list_elem_of_fmap Hin. simpl in Hin.
    apply list_elem_of_singleton in Hin. apply H3 in Hx. lia.
  - intros e [Hin | Hin%list_elem_of_singleton]%elem_of_app; rewrite Fb, Fe.
    + apply H3 in Hin. lia.
    + subst e; simpl. lia.
  - intros sid' e. rewrite elem_of_app, list_elem_of_singleton. split.
    + destruct (decide (sid = sid')) as [<- | Hne].
      * rewrite lookup_insert_eq. intros [= <-]. split; [by right |].
        simpl. rewrite Fnew. by apply Id_sets.
      * rewrite lookup_insert_ne by done. intros [Hin Hid]%H4.
        split; [by left |]. rewrite Fold; [done |].
        apply H3 in Hin. lia.
    + intros [[Hin | ->] Hid].
      * rewrite Fold in Hid by (apply H3 in Hin; lia).
        assert (Hlook : m !! sid' = Some e) by (by apply H4).
        rewrite lookup_insert_ne; [done |]. intros ->. congruence.
      * simpl in Hid. rewrite Fnew, Id_sets in Hid by done. subst sid'.
        apply lookup_insert_eq.
Qed.

Lemma evict_fields element σ :
  prepireRelease (p σ) = None ->
  sessions (p (evict element σ)) =
    delete (store_id (heap σ (golist.Value element))) <$> sessions (p σ) /\
  list_ (p (evict element σ)) = golist.Remove element <$> list_ (p σ) /\
  destroied (p (evict element σ)) = destroied (p σ) /\
  prepireRelease (p (evict element σ)) = None /\
  brk (evict element σ) = brk σ /\ ebrk (evict element σ) = ebrk σ /\
  stores (evict element σ) = stores σ /\ now (evict element σ) = now σ /\
  (forall b, store_id (heap (evict element σ) b) = store_id (heap σ b)) /\
  (forall b, store_active (heap (evict element σ) b) = store_active (heap σ b)).
Proof.
  intros Hcb. unfold evict, update. rewrite Hcb; simpl.
  rewrite decide_True by done; simpl.
  repeat (split; [done |]).
  split; intros b; by destruct (decide (b = golist.Value element)) as [-> |].
Qed.

Lemma Remove_head element l :
  NoDup (golist.eaddr <$> element :: l) ->
  golist.Remove element (element :: l) = l.
Proof. exact (Remove_split [] element l). Qed.

Lemma evict_consistent element l m σ :
  sessions (p σ) = Some m -> list_ (p σ) = Some (element :: l) ->
  destroied (p σ) = false -> prepireRelease (p σ) = None ->
  tables_ok σ m (element :: l) ->
  consistent (evict element σ).
Proof.
  intros Hm Hl Hd Hcb [H1 H2 H3 H4].
  destruct (evict_fields element σ Hcb)
    as (Fm & Fl & Fd & Fcb & Fb & Fe & _ & _ & Fid & _).
  exists (delete (store_id (heap σ (golist.Value element))) m), l.
  rewrite Fm, Fl, Fd, Fcb, Hm, Hl; simpl.
  rewrite Remove_head by done.
  repeat (split; [done |]).
  rewrite fmap_cons in H1, H2.
  apply NoDup_cons in H1 as [Hfresh H1]. apply NoDup_cons in H2 as [_ H2].
  assert (Hfront : m !! store_id (heap σ (golist.Value element)) = Some element).
  { apply H4. split; [by left | done]. }
  constructor; try done.
  - intros e Hin. rewrite Fb, Fe. apply H3. by right.
  - intros sid e. rewrite Fid. split.
    + intros [Hne Hlook]%lookup_delete_Some.
      apply H4 in Hlook as [Hin Hid]. split; [| done].
      apply elem_of_cons in Hin as [-> | Hin]; [done | done].
    + intros [Hin Hid]. apply lookup_delete_Some.
      assert (Hlook : m !! sid = Some e) by (apply H4; split; [by right | done]).
      split; [| done]. intros E. rewrite E in Hfront.
      assert (e = element) by congruence. subst e.
      apply Hfresh. by apply list_elem_of_fmap_2.
Qed.

Lemma gc_loop_consistent fuel : forall sleep log σ σ' sleep' log',
  consistent σ ->
  gc_loop fuel sleep log σ = Return (σ', sleep', log') -> consistent σ'.
Proof.
  induction fuel as [| fuel IH]; intros sleep log σ σ' sleep' log' Hc; simpl.
  - destruct (destroied (p σ)); [| discriminate]. intros H; inversion H; by subst.
  - destruct (destroied (p σ)) eqn:Hd0. { intros H; inversion H; by subst. }
    destruct Hc as (m & l & Hm & Hl & Hd & Hcb & Hok). rewrite Hl.
    destruct l as [| element l]; simpl.
    { intros H; inversion H; subst. by exists m, []. }
    destruct (_ >? _).
    { intros H; inversion H; subst. by exists m, (element :: l). }
    apply IH. by eapply evict_consistent.
Qed.

Lemma gc_consistent σ σ' timer log :
  consistent σ -> gc σ = Return (σ', timer, log) -> consistent σ'.
Proof.
  intros Hc. unfold gc.
  destruct (gc_loop _ 10 [] σ) as [[[σ1 sleep] log1] | |] eqn:Hloop;
    simpl; try done.
  intros H; inversion H; subst. by eapply gc_loop_consistent.
Qed.

Lemma GetSession_consistent rnd w r sessionid σ session err w' r' σ' :
  consistent σ ->
  GetSession rnd w r sessionid σ = Return (session, err, w', r', σ') ->
  consistent σ'.
Proof.
  intros Hc. unfold GetSession.
  destruct (resolve_id (p σ) rnd r sessionid) as [[[sid e0] writeCookie] cookie] eqn:Hr.
  destruct e0 as [e0 |]; [intros H; inversion H; by subst |].
  apply resolve_id_nonempty in Hr.
  destruct (lookup_session sid σ) as [sess |] eqn:Hlook.
  - intros H; inversion H; subst. by eapply touch_consistent.
  - destruct (create sid σ) as [[[s1 e1] σ1] | |] eqn:Hcr; simpl; try done.
    pose proof (create_consistent _ _ _ _ _ Hr Hc Hlook Hcr) as Hc1.
    destruct e1 as [e1 |]; [intros H; inversion H; by subst |].
    destruct (if writeCookie then _ else cookie); [| done].
    intros H; inversion H; by subst.
Qed.

Lemma GetSessionById_consistent sid σ session err σ' :
  consistent σ ->
  GetSessionById sid σ = Return (session, err, σ') -> consistent σ'.
Proof.
  intros Hc. unfold GetSessionById.
  destruct (String.eqb_spec sid "") as [E | E]; [intros H; inversion H; by subst |].
  destruct (lookup_session sid σ) as [sess |] eqn:Hlook.
  - intros H; inversion H; subst. by eapply touch_consistent.
  - by apply create_consistent.
Qed.

Lemma exec_consistent c σ σ' :
  consistent σ -> exec c σ = Return σ' -> consistent σ'.
Proof.
  intros Hc. destruct c as [rnd w r sessionid | sid | sid | w r | sid |]; simpl.
  - destruct (GetSession rnd w r sessionid σ) as [[[[[s e] w'] r'] σ1] | |] eqn:H;
      simpl; try done.
    intros [= <-]. by eapply GetSession_consistent.
  - destruct (GetSessionById sid σ) as [[[s e] σ1] | |] eqn:H; simpl; try done.
    intros [= <-]. by eapply GetSessionById_consistent.
  - unfold SessionUpdate. destruct (lookup_session sid σ) eqn:Hlook.
    + intros [= <-]. by eapply touch_consistent.
    + by intros [= <-].
  - unfold SessionDestroy. destruct (http.CookieOf r _) as [ck |]; simpl.
    + destruct (String.eqb (http.Value ck) ""); simpl; [by intros [= <-] |].
      intros [= <-]. destruct (lookup_session _ σ); [| done].
      by apply release_consistent.
    + by intros [= <-].
  - unfold SessionDestroyById. destruct (lookup_session sid σ).
    + intros [= <-]. by apply release_consistent.
    + by intros [= <-].
  - destruct (gc σ) as [[[σ1 t] log] | |] eqn:H; simpl; try done.
    intros [= <-]. by eapply gc_consistent.
Qed.

Lemma NewSessionManager_state c σ0 σ timer :
  NewSessionManager (Some c) σ0 = Return (Some (σ, timer)) ->
  sessions (p σ) = Some ∅ /\ list_ (p σ) = Some [] /\
  destroied (p σ) = false /\ prepireRelease (p σ) = None /\
  stores σ = stores σ0.
Proof. unfold NewSessionManager, gc; simpl. by intros [= <- _]. Qed.

Lemma tick_consistent d σ : consistent σ -> consistent (tick d σ).
Proof.
  intros (m & l & Hm & Hl & Hd & Hcb & Hok). exists m, l.
  repeat (split; [done |]). by apply (tables_ok_ext σ).
Qed.

Lemma reachable_consistent σ : reachable σ -> consistent σ.
Proof.
  induction 1 as [c σ0 σ timer Hnew | c σ σ' _ IH Hexec | d σ _ IH].
  - apply NewSessionManager_state in Hnew as (Hm & Hl & Hd & Hcb & _).
    exists ∅, []. repeat (split; [done |]).
    constructor; simpl; [constructor | constructor | by intros e Hin%elem_of_nil |].
    intros sid e. rewrite lookup_empty. split; [done |].
    by intros [Hin%elem_of_nil _].
  - by eapply exec_consistent.
  - by apply tick_consistent.
Qed.

(** C4: in every state a manager reaches through [GetSession],
    [GetSessionById], [SessionUpdate], [SessionDestroy],
    [SessionDestroyById] and [gc], the keys of the map are exactly the
    identifiers of the stores carried by the entries of the recency
    list. *)
Theorem map_ids_eq_list_ids (σ : State) :
  reachable σ -> map_ids σ = list_ids σ.
Proof.
  intros (m & l & Hm & Hl & _ & _ & Hok)%reachable_consistent.
  unfold map_ids, list_ids, list_stores. rewrite Hm, Hl; simpl.
  apply set_eq. intros sid.
  rewrite elem_of_dom, elem_of_list_to_set, list_elem_of_fmap. split.
  - intros [e [Hin Hid]%(ok_index _ _ _ Hok)].
    exists (heap σ (golist.Value e)). split; [done |].
    apply list_elem_of_fmap. by exists e.
  - intros (st & -> & (e & -> & Hin)%list_elem_of_fmap).
    exists e. by apply (ok_index _ _ _ Hok).
Qed.

(** ** The recency order *)

Lemma fmap_ext_elem {A B} (f g : A -> B) (l : list A) :
  (forall x, x ∈ l -> f x = g x) -> f <$> l = g <$> l.
Proof.
  induction l as [| x l IH]; intros H; [done |].
  rewrite !fmap_cons. rewrite H by (by left).
  rewrite IH; [done |]. intros y Hy. apply H. by right.
Qed.

Lemma list_actives_eq σ l :
  list_ (p σ) = Some l ->
  list_actives σ = (fun e => store_active (heap σ (golist.Value e))) <$> l.
Proof.
  intros H. unfold list_actives, list_stores. rewrite H; simpl.
  by rewrite <- list_fmap_compose.
Qed.

Lemma NoDup_fmap_middle {A B} (f : A -> B) (l1 l2 : list A) (e x : A) :
  NoDup (f <$> (l1 ++ e :: l2)) -> x ∈ l1 ++ l2 -> f x ≠ f e.
Proof.
  rewrite fmap_app, fmap_cons. intros Hnd Hx E.
  apply NoDup_app in Hnd as (_ & Hdisj & Hnd2).
  apply NoDup_cons in Hnd2 as [Hnot _].
  apply elem_of_app in Hx as [Hx | Hx].
  - apply (Hdisj (f x)); [by apply list_elem_of_fmap_2 |]. rewrite E. by left.
  - apply Hnot. rewrite <- E. by apply list_elem_of_fmap_2.
Qed.

Lemma touch_list e σ l :
  list_ (p σ) = Some l ->
  list_ (p (touch e σ)) = Some (golist.MoveToBack e l).
Proof. intros H. unfold touch; simpl. by rewrite H. Qed.

Lemma touch_ordered sid e σ :
  consistent σ -> ordered σ -> lookup_session sid σ = Some e ->
  ordered (touch e σ).
Proof.
  intros (m & l & Hm & Hl & Hd & Hcb & Hok) [Hs Hb] Hlook.
  unfold lookup_session in Hlook. rewrite Hm in Hlook.
  destruct (touch_fields e σ)
    as (_ & _ & _ & _ & _ & _ & _ & Fnow & Fold & Fnew & _).
  assert (Hin : e ∈ l) by (by apply (ok_index _ _ _ Hok) in Hlook as [? _]).
  apply list_elem_of_split in Hin as (l1 & l2 & ->).
  pose proof (touch_list e σ _ Hl) as Fl.
  rewrite MoveToBack_split in Fl by apply (ok_eaddr _ _ _ Hok).
  rewrite (list_actives_eq _ _ Hl) in Hs, Hb.
  unfold ordered. rewrite (list_actives_eq _ _ Fl), Fnow.
  rewrite fmap_app, list_fmap_singleton, Fnew.
  rewrite (fmap_ext_elem _ (fun x => store_active (heap σ (golist.Value x)))).
  2: { intros x Hx. rewrite Fold; [done |].
       eapply NoDup_fmap_middle; [apply (ok_value _ _ _ Hok) | done]. }
  rewrite fmap_app, fmap_cons in Hs, Hb.
  assert (Hb' : Forall (fun a => a <= now σ)
                  ((fun x => store_active (heap σ (golist.Value x))) <$> l1 ++ l2)).
  { rewrite fmap_app. rewrite Forall_app in Hb |- *.
    destruct Hb as [? [_ ?]%Forall_cons]. done. }
  split.
  - apply StronglySorted_snoc; [| done].
    rewrite fmap_app. by eapply StronglySorted_drop.
  - apply Forall_app. split; [done |]. by repeat constructor.
Qed.

Lemma ordered_ext σ σ' :
  list_ (p σ') = list_ (p σ) -> now σ' = now σ ->
  (forall b, store_active (heap σ' b) = store_active (heap σ b)) ->
  ordered σ -> ordered σ'.
Proof.
  intros Hl Hnow Hact. unfold ordered, list_actives, list_stores.
  rewrite Hl, Hnow, <- !list_fmap_compose.
  by rewrite (fmap_ext_elem (store_active ∘ (fun e => heap σ' (golist.Value e)))
                (store_active ∘ (fun e => heap σ (golist.Value e))))
    by (intros x _; apply Hact).
Qed.

Lemma release_ordered a σ : ordered σ -> ordered (update a Release σ).
Proof.
  apply ordered_ext; [done | done |].
  intros b. unfold update; simpl. by destruct (decide (b = a)) as [-> |].
Qed.

Lemma create_ordered sid σ session err σ' :
  stamping (stores σ) -> consistent σ -> ordered σ ->
  create sid σ = Return (session, err, σ') -> ordered σ'.
Proof.
  intros Hst (m & l & Hm & Hl & Hd & Hcb & Hok) [Hs Hb] Hc.
  destruct err as [e |].
  { apply create_returns in Hc as [_ ->]. by split. }
  destruct (create_fields _ _ _ _ _ _ Hm Hl Hc)
    as (st & Hnew & _ & _ & Fl & _ & _ & _ & _ & _ & Fnow & Fnew & Fold).
  assert (Hact : store_active st = now σ).
  { unfold newSessionStore in Hnew.
    destruct (stores σ !! StoreType (p σ)) as [f |] eqn:Hf; [| discriminate].
    by eapply Hst. }
  rewrite (list_actives_eq _ _ Hl) in Hs, Hb.
  unfold ordered. rewrite (list_actives_eq _ _ Fl), Fnow.
  rewrite fmap_app, list_fmap_singleton.
  change (golist.Value (golist.mkElement (ebrk σ) (brk σ))) with (brk σ).
  rewrite Fnew, Id_active, Hact.
  rewrite (fmap_ext_elem _ (fun x => store_active (heap σ (golist.Value x)))).
  2: { intros x Hx. rewrite Fold; [done |].
       apply (ok_alloc _ _ _ Hok) in Hx. lia. }
  split.
  - by apply StronglySorted_snoc.
  - apply Forall_app. split; [done |]. by repeat constructor.
Qed.

Lemma evict_ordered element l σ :
  list_ (p σ) = Some (element :: l) -> prepireRelease (p σ) = None ->
  NoDup (golist.eaddr <$> element :: l) ->
  ordered σ -> ordered (evict element σ).
Proof.
  intros Hl Hcb Hnd [Hs Hb].
  destruct (evict_fields element σ Hcb)
    as (_ & _ & _ & _ & _ & _ & _ & Fnow & _ & Fact).
  pose proof (evict_list element σ _ Hl) as Fl.
  rewrite Remove_head in Fl by done.
  rewrite (list_actives_eq _ _ Hl), fmap_cons in Hs, Hb.
  unfold ordered. rewrite (list_actives_eq _ _ Fl), Fnow.
  rewrite (fmap_ext_elem _ (fun x => store_active (heap σ (golist.Value x))))
    by (intros x _; apply Fact).
  apply StronglySorted_inv in Hs as [Hs _].
  apply Forall_cons in Hb as [_ Hb]. by split.
Qed.

Lemma gc_loop_ordered fuel : forall sleep log σ σ' sleep' log',
  consistent σ -> ordered σ ->
  gc_loop fuel sleep log σ = Return (σ', sleep', log') ->
  ordered σ' /\ stores σ' = stores σ.
Proof.
  induction fuel as [| fuel IH]; intros sleep log σ σ' sleep' log' Hc Ho; simpl.
  - destruct (destroied (p σ)); [| discriminate]. intros H; inversion H; by subst.
  - destruct (destroied (p σ)) eqn:Hd0. { intros H; inversion H; by subst. }
    destruct Hc as (m & l & Hm & Hl & Hd & Hcb & Hok). rewrite Hl.
    destruct l as [| element l]; simpl.
    { intros H; inversion H; by subst. }
    destruct (_ >? _).
    { intros H; inversion H; by subst. }
    intros H. apply IH in H as [? ->].
    + split; [done |]. by destruct (evict_fields element σ Hcb) as (_&_&_&_&_&_&->&_).
    + by eapply evict_consistent.
    + eapply evict_ordered; [done | done | apply (ok_eaddr _ _ _ Hok) | done].
Qed.

Lemma create_stores sid σ session err σ' :
  create sid σ = Return (session, err, σ') -> stores σ' = stores σ.
Proof.
  unfold create. destruct (newSessionStore _ _ σ) as [st | e]; simpl.
  - destruct (list_ (p σ)); [| discriminate].
    destruct (sessions (p σ)); [| discriminate]. intros H; inversion H; by subst.
  - intros H; inversion H; by subst.
Qed.

Lemma exec_ordered c σ σ' :
  stamping (stores σ) -> consistent σ -> ordered σ ->
  exec c σ = Return σ' -> ordered σ' /\ stores σ' = stores σ.
Proof.
  intros Hst Hc Ho.
  destruct c as [rnd w r sessionid | sid | sid | w r | sid |]; simpl.
  - unfold GetSession.
    destruct (resolve_id (p σ) rnd r sessionid) as [[[sid e0] writeCookie] cookie].
    destruct e0 as [e0 |]; simpl; [by intros [= <-] |].
    destruct (lookup_session sid σ) as [sess |] eqn:Hlook; simpl.
    + intros [= <-]. split; [by eapply touch_ordered | done].
    + destruct (create sid σ) as [[[s1 e1] σ1] | |] eqn:Hcr; simpl; try done.
      pose proof (create_ordered _ _ _ _ _ Hst Hc Ho Hcr).
      pose proof (create_stores _ _ _ _ _ Hcr).
      destruct e1 as [e1 |]; simpl; [by intros [= <-] |].
      destruct (if writeCookie then _ else cookie); simpl; [| done].
      by intros [= <-].
  - unfold GetSessionById. destruct (String.eqb sid ""); simpl; [by intros [= <-] |].
    destruct (lookup_session sid σ) as [sess |] eqn:Hlook; simpl.
    + intros [= <-]. split; [by eapply touch_ordered | done].
    + destruct (create sid σ) as [[[s1 e1] σ1] | |] eqn:Hcr; simpl; try done.
      intros [= <-]. split; [by eapply create_ordered | by eapply create_stores].
  - unfold SessionUpdate. destruct (lookup_session sid σ) eqn:Hlook.
    + intros [= <-]. split; [by eapply touch_ordered | done].
    + by intros [= <-].
  - unfold SessionDestroy. destruct (http.CookieOf r _) as [ck |]; simpl.
    + destruct (String.eqb (http.Value ck) ""); simpl; [by intros [= <-] |].
      intros [= <-]. destruct (lookup_session _ σ); [| done].
      split; [by apply release_ordered | done].
    + by intros [= <-].
  - unfold SessionDestroyById. destruct (lookup_session sid σ).
    + intros [= <-]. split; [by apply release_ordered | done].
    + by intros [= <-].
  - unfold gc.
    destruct (gc_loop _ 10 [] σ) as [[[σ1 sleep] log1] | |] eqn:Hloop;
      simpl; try done.
    intros [= <-]. by eapply gc_loop_ordered.
Qed.

Lemma tick_ordered d σ : ordered σ -> ordered (tick d σ).
Proof.
  intros [Hs Hb]. split; [done |].
  eapply Forall_impl; [exact Hb |]. simpl. intros a Ha. lia.
Qed.

Lemma evict_stores element σ : stores (evict element σ) = stores σ.
Proof. unfold evict; simpl. by destruct (prepireRelease (p σ)). Qed.

Lemma gc_loop_stores fuel : forall sleep log σ σ' sleep' log',
  gc_loop fuel sleep log σ = Return (σ', sleep', log') -> stores σ' = stores σ.
Proof.
  induction fuel as [| fuel IH]; intros sleep log σ σ' sleep' log'; simpl.
  - destruct (destroied (p σ)); [| discriminate]. by intros [= <-].
  - destruct (destroied (p σ)); [by intros [= <-] |].
    destruct (list_ (p σ)) as [l |]; [| discriminate].
    destruct (golist.Front l) as [element |]; [| by intros [= <-]].
    destruct (_ >? _); [by intros [= <-] |].
    intros H. apply IH in H. rewrite H. apply evict_stores.
Qed.

Lemma exec_stores c σ σ' : exec c σ = Return σ' -> stores σ' = stores σ.
Proof.
  destruct c as [rnd w r sessionid | sid | sid | w r | sid |]; simpl.
  - unfold GetSession.
    destruct (resolve_id (p σ) rnd r sessionid) as [[[sid e0] wc] ck].
    destruct e0; simpl; [by intros [= <-] |].
    destruct (lookup_session sid σ); simpl; [by intros [= <-] |].
    destruct (create sid σ) as [[[s1 e1] σ1] | |] eqn:Hcr; simpl; try done.
    apply create_stores in Hcr.
    destruct e1; simpl; [by intros [= <-] |].
    destruct (if wc then _ else ck); simpl; [| done]. by intros [= <-].
  - unfold GetSessionById.
    destruct (String.eqb sid ""); simpl; [by intros [= <-] |].
    destruct (lookup_session sid σ); simpl; [by intros [= <-] |].
    destruct (create sid σ) as [[[s1 e1] σ1] | |] eqn:Hcr; simpl; try done.
    apply create_stores in Hcr. by intros [= <-].
  - unfold SessionUpdate. destruct (lookup_session sid σ); by intros [= <-].
  - unfold SessionDestroy.
    destruct (http.CookieOf r _) as [ck |]; simpl; [| by intros [= <-]].
    destruct (String.eqb (http.Value ck) ""); simpl; intros [= <-]; [done |].
    by destruct (lookup_session _ σ).
  - unfold SessionDestroyById. destruct (lookup_session sid σ); by intros [= <-].
  - unfold gc.
    destruct (gc_loop _ 10 [] σ) as [[[σ1 sleep] log1] | |] eqn:Hloop;
      simpl; try done.
    intros [= <-]. by eapply gc_loop_stores.
Qed.

Lemma reachable_ordered σ :
  reachable σ -> stamping (stores σ) -> ordered σ.
Proof.
  induction 1 as [c σ0 σ timer Hnew | c σ σ' Hr IH Hexec | d σ _ IH].
  - intros _. apply NewSessionManager_state in Hnew as (_ & Hl & _).
    unfold ordered. rewrite (list_actives_eq _ _ Hl). split; constructor.
  - intros Hst. rewrite (exec_stores _ _ _ Hexec) in Hst.
    apply reachable_consistent in Hr.
    by destruct (exec_ordered _ _ _ Hst Hr (IH Hst) Hexec).
  - intros Hst. apply tick_ordered. by apply IH.
Qed.

Lemma touch_back sid e σ :
  consistent σ -> lookup_session sid σ = Some e ->
  back (touch e σ) = Some (golist.Value e).
Proof.
  intros (m & l & Hm & Hl & _ & _ & Hok) Hlook.
  unfold lookup_session in Hlook. rewrite Hm in Hlook.
  assert (Hin : e ∈ l) by (by apply (ok_index _ _ _ Hok) in Hlook as [? _]).
  apply list_elem_of_split in Hin as (l1 & l2 & ->).
  unfold back. rewrite (touch_list e σ _ Hl).
  rewrite MoveToBack_split by apply (ok_eaddr _ _ _ Hok).
  simpl. by rewrite last_snoc.
Qed.

Lemma create_back sid σ session σ' :
  consistent σ -> create sid σ = Return (Some session, None, σ') ->
  back σ' = Some session.
Proof.
  intros (m & l & Hm & Hl & _) Hc.
  destruct (create_fields _ _ _ _ _ _ Hm Hl Hc) as (_ & _ & [= ->] & _ & Fl & _).
  unfold back. rewrite Fl; simpl. by rewrite last_snoc.
Qed.

Lemma run_reachable steps : forall σ σ',
  reachable σ -> run steps σ = Return σ' -> reachable σ'.
Proof.
  induction steps as [| [c | d] steps IH]; intros σ σ' Hr; simpl.
  - by intros [= <-].
  - destruct (exec c σ) as [σ1 | |] eqn:He; simpl; try done.
    apply IH. by eapply reach_call.
  - apply IH. by apply reach_tick.
Qed.

(** C5, the failing run: the store type of a manager built by
    [NewSessionManager] at time 100 has a factory that leaves the
    last-active time of a new store at zero.  [GetSessionById] creates
    session [a], [SessionUpdate] refreshes it, [GetSessionById] creates
    session [b].  Session [b], the one accessed last, is at the back of
    the list, but with last-active time 0 behind session [a] with 100:
    the creation path (lines 197-205, and 130-138 alike) appends the new
    store without the call of [Active(true)] the hit path makes, so the
    list is not sorted by ascending last-active time. *)
Theorem creation_does_not_stamp :
  reachable stale_busy /\
  (exists σ0 timer σ1 σ2,
     NewSessionManager (Some demo_config)
       (mkState (p blank) (heap blank) (brk blank) (ebrk blank)
          stale_registry (now blank))
       = Return (Some (σ0, timer)) /\
     GetSessionById "a" σ0 = Return (Some 0%nat, None, σ1) /\
     SessionUpdate "a" σ1 = Return σ2 /\
     GetSessionById "b" σ2 = Return (Some 1%nat, None, stale_busy)) /\
  now stale_busy = 100 /\
  list_ (p stale_busy) = Some [golist.mkElement 0 0; golist.mkElement 1 1] /\
  store_id <$> list_stores stale_busy = ["a"%string; "b"%string] /\
  list_actives stale_busy = [100; 0] /\
  back stale_busy = Some 1%nat /\
  (Sorted Z.le (list_actives stale_busy) -> False).
Proof.
  assert (Hnew : exists σ0 timer,
            NewSessionManager (Some demo_config)
              (mkState (p blank) (heap blank) (brk blank) (ebrk blank)
                 stale_registry (now blank))
              = Return (Some (σ0, timer)) /\
            run [ Call (CallGetSessionById "a"); Call (CallSessionUpdate "a");
                  Call (CallGetSessionById "b") ] σ0 = Return stale_busy).
  { do 2 eexists. split; [reflexivity |]. by vm_compute. }
  split.
  { destruct Hnew as (σ0 & timer & Hnew & Hrun).
    eapply run_reachable; [| exact Hrun]. by eapply reach_new. }
  split.
  { do 4 eexists. split; [reflexivity |]. split; [by vm_compute |].
    split; by vm_compute. }
  repeat (split; [by vm_compute |]).
  replace (list_actives stale_busy) with [100; 0] by (by vm_compute).
  intros Hs. apply Sorted_inv in Hs as [_ Hd].
  apply HdRel_inv in Hd. lia.
Qed.

(** X23: an access moves the session to the back.  In any state reached
    from [NewSessionManager], for a non-empty identifier: when it is
    indexed, [GetSessionById], [SessionUpdate] and a [GetSession] whose
    working identifier it is all return, leave the same state, in which
    the entry has moved behind all others, the others keeping their order,
    and the store is stamped with the clock; when it is not indexed,
    [SessionUpdate] does nothing, and [GetSessionById] and such a
    [GetSession] return the store the factory built, at a new address, in
    a new entry behind all others of the list, or the error the factory
    gave with no change of the state. *)
Theorem access_moves_to_back (σ : State) (sid : string) :
  reachable σ -> sid ≠ EmptyString ->
  exists l, list_ (p σ) = Some l /\
  match lookup_session sid σ with
  | Some e =>
      GetSessionById sid σ = Return (Some (golist.Value e), None, touch e σ) /\
      SessionUpdate sid σ = Return (touch e σ) /\
      (forall rnd w r sessionid wc,
         spec_working_id (CookieName (p σ)) rnd r sessionid = (sid, None, wc) ->
         GetSession rnd w r sessionid σ
           = Return (Some (golist.Value e), None, w, r, touch e σ)) /\
      e ∈ l /\
      list_ (p (touch e σ)) = Some (golist.Remove e l ++ [e]) /\
      back (touch e σ) = Some (golist.Value e) /\
      store_active (heap (touch e σ) (golist.Value e)) = now σ
  | None =>
      SessionUpdate sid σ = Return σ /\
      match newSessionStore (StoreType (p σ)) (StoreConfig (p σ)) σ with
      | inl st =>
          exists σ',
            GetSessionById sid σ = Return (Some (brk σ), None, σ') /\
            (forall rnd w r sessionid wc,
               spec_working_id (CookieName (p σ)) rnd r sessionid
                 = (sid, None, wc) ->
               exists w' r',
                 GetSession rnd w r sessionid σ
                   = Return (Some (brk σ), None, w', r', σ')) /\
            list_ (p σ') = Some (l ++ [golist.mkElement (ebrk σ) (brk σ)]) /\
            lookup_session sid σ' = Some (golist.mkElement (ebrk σ) (brk σ)) /\
            back σ' = Some (brk σ) /\
            heap σ' (brk σ) = fst (Id sid st)
      | inr err =>
          GetSessionById sid σ = Return (None, Some err, σ) /\
          (forall rnd w r sessionid wc,
             spec_working_id (CookieName (p σ)) rnd r sessionid
               = (sid, None, wc) ->
             GetSession rnd w r sessionid σ = Return (None, Some err, w, r, σ))
      end
  end.
Proof.
  intros Hr Hsid. pose proof (reachable_consistent _ Hr) as Hc.
  pose proof Hc as (m & l & Hm & Hl & _ & _ & Hok).
  exists l. split; [done |].
  assert (Hne : String.eqb sid "" = false) by (by apply String.eqb_neq).
  destruct (lookup_session sid σ) as [e |] eqn:Hlook.
  - assert (Hin : e ∈ l).
    { unfold lookup_session in Hlook. rewrite Hm in Hlook.
      by apply (ok_index _ _ _ Hok) in Hlook as [? _]. }
    split; [unfold GetSessionById; by rewrite Hne, Hlook |].
    split; [unfold SessionUpdate; by rewrite Hlook |].
    split.
    { intros rnd w r sessionid wc Hspec.
      pose proof (resolve_id_spec (p σ) rnd r sessionid) as Hres.
      rewrite Hspec in Hres. unfold GetSession.
      destruct (resolve_id (p σ) rnd r sessionid) as [[[sid' e0] wc'] ck].
      injection Hres as -> -> ->. by rewrite Hlook. }
    split; [done |].
    split.
    { rewrite (touch_list e σ _ Hl). f_equal.
      unfold golist.MoveToBack.
      assert (Hmem : golist.member e l = true).
      { unfold golist.member. apply bool_decide_eq_true.
        apply list_elem_of_fmap. by exists e. }
      by rewrite Hmem. }
    split; [by eapply touch_back |].
    by destruct (touch_fields e σ) as (_ & _ & _ & _ & _ & _ & _ & _ & _ & Fa & _).
  - split; [unfold SessionUpdate; by rewrite Hlook |].
    destruct (newSessionStore (StoreType (p σ)) (StoreConfig (p σ)) σ)
      as [st | err] eqn:Hnew.
    + assert (Hcr : create sid σ
                = Return (Some (brk σ), None,
                    mkState
                      (with_tables
                         (Some (<[sid := golist.mkElement (ebrk σ) (brk σ)]> m))
                         (Some (l ++ [golist.mkElement (ebrk σ) (brk σ)])) (p σ))
                      (fun b => if decide (b = brk σ) then fst (Id sid st)
                                else heap σ b)
                      (S (brk σ)) (S (ebrk σ)) (stores σ) (now σ))).
      { unfold create. rewrite Hnew. simpl. by rewrite Hl, Hm. }
      eexists. split; [unfold GetSessionById; rewrite Hne, Hlook; exact Hcr |].
      split.
      { intros rnd w r sessionid wc Hspec.
        pose proof (resolve_id_spec (p σ) rnd r sessionid) as Hres.
        rewrite Hspec in Hres. unfold GetSession.
        destruct (resolve_id (p σ) rnd r sessionid)
          as [[[sid' e0] wc'] ck] eqn:Hrid.
        injection Hres as -> -> ->. rewrite Hlook, Hcr. simpl.
        destruct wc; simpl; [by do 2 eexists |].
        destruct ck as [c |]; [by do 2 eexists |].
        by apply resolve_id_cookie in Hrid. }
      split; [reflexivity |].
      split; [unfold lookup_session; simpl; apply lookup_insert_eq |].
      split; [unfold back; simpl; by rewrite last_snoc |].
      simpl. by rewrite decide_True.
    + split.
      { unfold GetSessionById, create. by rewrite Hne, Hlook, Hnew. }
      intros rnd w r sessionid wc Hspec.
      pose proof (resolve_id_spec (p σ) rnd r sessionid) as Hres.
      rewrite Hspec in Hres. unfold GetSession, create.
      destruct (resolve_id (p σ) rnd r sessionid) as [[[sid' e0] wc'] ck].
      injection Hres as -> -> ->. by rewrite Hlook, Hnew.
Qed.

(** X24: in any state reached from [NewSessionManager] with store
    factories that stamp a new store with the time of its construction,
    the recency list is sorted by ascending last-active time, and no
    session was last active in the future. *)
Theorem sorted_when_factories_stamp (σ : State) :
  reachable σ -> stamping (stores σ) ->
  Sorted Z.le (list_actives σ) /\
  Forall (fun a => a <= now σ) (list_actives σ).
Proof.
  intros Hr Hst. destruct (reachable_ordered σ Hr Hst) as [Hs Hf].
  split; [by apply StronglySorted_Sorted | done].
Qed.

(** ** The demonstration run *)

Lemma demo_reachable : reachable demo.
Proof. by apply (reach_new demo_config blank demo (Some 10000000000)). Qed.

Lemma demo_busy_reachable : reachable demo_busy.
Proof.
  apply (run_reachable demo_steps demo); [apply demo_reachable |].
  by vm_compute.
Qed.

Lemma memory_registry_stamping : stamping memory_registry.
Proof.
  intros name newFunc config t st Hreg Hnew.
  unfold memory_registry in Hreg.
  apply lookup_singleton_Some in Hreg as [_ <-].
  by inversion Hnew.
Qed.

Lemma demo_busy_stamping : stamping (stores demo_busy).
Proof. exact memory_registry_stamping. Qed.

Example demo_busy_tables :
  list_ (p demo_busy)
    = Some [golist.mkElement 0 0; golist.mkElement 1 1] /\
  list_actives demo_busy = [101; 102] /\
  store_id <$> list_stores demo_busy
    = ["abababababababababababababababababababababababab"%string;
       "worker"%string] /\
  store_released <$> list_stores demo_busy = [false; true].
Proof. by vm_compute. Qed.

Lemma map_ids_eq_list_ids_witness : map_ids demo_busy = list_ids demo_busy.
Proof. exact (map_ids_eq_list_ids demo_busy demo_busy_reachable). Defined.

Lemma access_moves_to_back_witness :
  let sid := "abababababababababababababababababababababababab"%string in
  let e := golist.mkElement 0 0 in
  exists l, list_ (p demo_busy) = Some l /\
    GetSessionById sid demo_busy
      = Return (Some (golist.Value e), None, touch e demo_busy) /\
    SessionUpdate sid demo_busy = Return (touch e demo_busy) /\
    (forall rnd w r sessionid wc,
       spec_working_id (CookieName (p demo_busy)) rnd r sessionid
         = (sid, None, wc) ->
       GetSession rnd w r sessionid demo_busy
         = Return (Some (golist.Value e), None, w, r, touch e demo_busy)) /\
    e ∈ l /\
    list_ (p (touch e demo_busy)) = Some (golist.Remove e l ++ [e]) /\
    back (touch e demo_busy) = Some (golist.Value e) /\
    store_active (heap (touch e demo_busy) (golist.Value e)) = now demo_busy.
Proof.
  intros sid e.
  exact (access_moves_to_back demo_busy sid demo_busy_reachable
           ltac:(discriminate)).
Defined.

(** The two sessions of the demonstration, and what the accesses of the
    statement above do there: the refreshed session moves behind the
    other one, a new session is appended. *)
Example demo_busy_accesses :
  lookup_session "abababababababababababababababababababababababab" demo_busy
    = Some (golist.mkElement 0 0) /\
  (exists σ', GetSessionById "abababababababababababababababababababababababab"
                demo_busy = Return (Some 0%nat, None, σ') /\
              list_ (p σ')
                = Some [golist.mkElement 1 1; golist.mkElement 0 0] /\
              list_actives σ' = [102; 103]) /\
  (exists σ', GetSessionById "new" demo_busy = Return (Some 2%nat, None, σ') /\
              list_ (p σ')
                = Some [golist.mkElement 0 0; golist.mkElement 1 1;
                        golist.mkElement 2 2] /\
              list_actives σ' = [101; 102; 103]).
Proof.
  split; [by vm_compute |].
  split; eexists; (split; [by vm_compute |]); split; by vm_compute.
Qed.

Lemma sorted_when_factories_stamp_witness :
  Sorted Z.le (list_actives demo_busy) /\
  Forall (fun a => a <= now demo_busy) (list_actives demo_busy).
Proof.
  exact (sorted_when_factories_stamp demo_busy demo_busy_reachable
           demo_busy_stamping).
Defined.

(** ** Calls on a consistent manager return *)

Lemma gc_loop_returns fuel : forall sleep log σ l,
  list_ (p σ) = Some l -> (length l < fuel)%nat ->
  exists res, gc_loop fuel sleep log σ = Return res.
Proof.
  induction fuel as [| fuel IH]; intros sleep log σ l Hl Hlen; [lia |].
  simpl. destruct (destroied (p σ)); [by eexists |].
  rewrite Hl. destruct l as [| element l]; simpl; [by eexists |].
  destruct (_ >? _); [by eexists |].
  apply (IH _ _ _ _ (evict_list element σ _ Hl)).
  pose proof (Remove_length element l). simpl in Hlen. lia.
Qed.

Lemma gc_returns σ l :
  list_ (p σ) = Some l -> exists res, gc σ = Return res.
Proof.
  intros Hl. unfold gc.
  destruct (gc_loop_returns (S (length (default [] (list_ (p σ))))) 10 [] σ l Hl)
    as [[[σ' sleep] log] ->]; [rewrite Hl; simpl; lia |].
  by eexists.
Qed.

Lemma create_returns_consistent sid σ :
  consistent σ -> exists res, create sid σ = Return res.
Proof.
  intros (m & l & Hm & Hl & _). unfold create.
  destruct (newSessionStore _ _ σ); simpl; [| by eexists].
  rewrite Hl, Hm. by eexists.
Qed.

(** No call panics, and the loop of [gc] ends, on a manager that has not
    been destroyed. *)
Lemma exec_returns c σ : consistent σ -> exists σ', exec c σ = Return σ'.
Proof.
  intros Hc. destruct c as [rnd w r sessionid | sid | sid | w r | sid |]; simpl.
  - unfold GetSession.
    destruct (resolve_id (p σ) rnd r sessionid) as [[[sid e0] wc] ck] eqn:Hr.
    destruct e0; simpl; [by eexists |].
    destruct (lookup_session sid σ); simpl; [by eexists |].
    destruct (create_returns_consistent sid σ Hc) as [[[s1 e1] σ1] ->]; simpl.
    destruct e1; simpl; [by eexists |].
    destruct wc; simpl; [by eexists |].
    destruct ck; simpl; [by eexists |]. by apply resolve_id_cookie in Hr.
  - unfold GetSessionById. destruct (String.eqb sid ""); simpl; [by eexists |].
    destruct (lookup_session sid σ); simpl; [by eexists |].
    destruct (create_returns_consistent sid σ Hc) as [[[s1 e1] σ1] ->]; simpl.
    by eexists.
  - unfold SessionUpdate. destruct (lookup_session sid σ); by eexists.
  - unfold SessionDestroy. destruct (http.CookieOf r _) as [ck |]; simpl; [| by eexists].
    destruct (String.eqb (http.Value ck) ""); simpl; by eexists.
  - unfold SessionDestroyById. destruct (lookup_session sid σ); by eexists.
  - destruct Hc as (m & l & _ & Hl & _).
    destruct (gc_returns σ l Hl) as [[[σ' t] log] ->]. simpl. by eexists.
Qed.

(** * Further properties of the package *)

(** ** Generated identifiers *)

Lemma rand_bytes_length rnd : length (rand_bytes rnd) = 24%nat.
Proof.
  unfold rand_bytes. rewrite length_take, length_app, length_replicate. lia.
Qed.

Lemma hextable_digits v :
  is_lower_hex (hex.hextable (N.shiftr (Byte.to_N v) 4)) = true /\
  is_lower_hex (hex.hextable (N.land (Byte.to_N v) 15)) = true.
Proof. destruct v; by vm_compute. Qed.

Lemma hextable_decode v :
  Byte.of_N (url.unhex (hex.hextable (N.shiftr (Byte.to_N v) 4)) * 16
             + url.unhex (hex.hextable (N.land (Byte.to_N v) 15)))%N = Some v.
Proof. destruct v; by vm_compute. Qed.

Lemma EncodeToString_length src :
  String.length (hex.EncodeToString src) = (2 * length src)%nat.
Proof. induction src as [| v src IH]; simpl; [done |]. rewrite IH. lia. Qed.

Lemma EncodeToString_digits src :
  all_chars is_lower_hex (hex.EncodeToString src) = true.
Proof.
  induction src as [| v src IH]; simpl; [done |].
  destruct (hextable_digits v) as [-> ->]. by rewrite IH.
Qed.

Lemma EncodeToString_inj src1 : forall src2,
  hex.EncodeToString src1 = hex.EncodeToString src2 -> src1 = src2.
Proof.
  induction src1 as [| v1 src1 IH]; intros [| v2 src2]; simpl; try done.
  intros [= H1 H2 Hrest].
  pose proof (hextable_decode v1) as D1. pose proof (hextable_decode v2) as D2.
  rewrite H1, H2 in D1. rewrite D1 in D2. injection D2 as ->.
  by rewrite (IH _ Hrest).
Qed.

Lemma sessionId_unfold rnd :
  sessionId rnd =
    if negb (Nat.eqb (rand_n rnd) 24) || rand_err rnd
    then (EmptyString, Some ErrCSPRNG)
    else (hex.EncodeToString (rand_bytes rnd), None).
Proof.
  unfold sessionId. fold (rand_bytes rnd). by rewrite rand_bytes_length.
Qed.

(** X1: [sessionId] succeeds exactly when the read filled the 24 bytes
    without an error; its identifier then has 48 characters, all of them
    digits of [0123456789abcdef]; in every other case it returns the empty
    string with the error. *)
Theorem sessionId_format (rnd : RandRead) :
  (rand_n rnd = 24%nat /\ rand_err rnd = false <->
     exists sid, sessionId rnd = (sid, None)) /\
  (forall sid, sessionId rnd = (sid, None) ->
     String.length sid = 48%nat /\ all_chars is_lower_hex sid = true) /\
  (forall sid e, sessionId rnd = (sid, Some e) ->
     sid = EmptyString /\ e = ErrCSPRNG).
Proof.
  rewrite sessionId_unfold.
  destruct (Nat.eqb_spec (rand_n rnd) 24) as [Hn | Hn];
    destruct (rand_err rnd) eqn:He; simpl.
  all: split; [split; [intros [? ?]; try done; by eexists
                      | intros [sid H]; try done; by inversion H] |].
  all: split; [intros sid H | intros sid e H]; inversion H; subst; try done.
  rewrite EncodeToString_length, EncodeToString_digits, rand_bytes_length.
  done.
Qed.

(** X2: an identifier determines the bytes it was generated from: two
    successful calls that return the same identifier read the same 24
    bytes. *)
Theorem sessionId_injective (rnd1 rnd2 : RandRead) (sid : string) :
  sessionId rnd1 = (sid, None) -> sessionId rnd2 = (sid, None) ->
  rand_bytes rnd1 = rand_bytes rnd2.
Proof.
  rewrite !sessionId_unfold.
  destruct (negb _ || rand_err rnd1); [done |].
  destruct (negb _ || rand_err rnd2); [done |].
  intros [= <-] [= H]. by apply EncodeToString_inj.
Qed.

Lemma sessionId_injective_witness :
  rand_bytes demo_rnd = rand_bytes (mkRandRead (replicate 30 Byte.xab) 24 false).
Proof.
  apply (sessionId_injective demo_rnd (mkRandRead (replicate 30 Byte.xab) 24 false)
           "abababababababababababababababababababababababab");
    reflexivity.
Defined.

(** ** Escaping and unescaping *)

Lemma unescape_percent a b rest :
  url.unescape (String "%" (String a (String b rest))) =
    if url.ishex a && url.ishex b then
      match url.unescape rest with
      | inl t =>
          inl (String (ascii_of_N
                         (N.lor (N.shiftl (url.unhex a) 4) (url.unhex b))) t)
      | inr e => inr e
      end
    else inr (EscapeError (String "%" (String a (String b EmptyString)))).
Proof. by destruct rest. Qed.

Lemma unescape_plain c rest :
  Ascii.eqb c "%" = false ->
  url.unescape (String c rest) =
    match url.unescape rest with
    | inl t => inl (String (if Ascii.eqb c "+" then " "%char else c) t)
    | inr e => inr e
    end.
Proof. intros H. simpl. by rewrite H. Qed.

(** What [QueryEscape] writes for one character reads back as it. *)
Lemma escape_char_reads_back c :
  (if Ascii.eqb c " " then true
   else if url.shouldEscape c then
     url.ishex (url.upperhex (N.shiftr (N_of_ascii c) 4)) &&
     url.ishex (url.upperhex (N.land (N_of_ascii c) 15)) &&
     Ascii.eqb
       (ascii_of_N
          (N.lor (N.shiftl (url.unhex (url.upperhex (N.shiftr (N_of_ascii c) 4))) 4)
             (url.unhex (url.upperhex (N.land (N_of_ascii c) 15))))) c
   else negb (Ascii.eqb c "%") && negb (Ascii.eqb c "+")) = true.
Proof. destruct c as [[] [] [] [] [] [] [] []]; by vm_compute. Qed.

Lemma unescape_QueryEscape s : url.unescape (url.QueryEscape s) = inl s.
Proof.
  induction s as [| c s IH]; [done |].
  pose proof (escape_char_reads_back c) as Hc. simpl.
  destruct (Ascii.eqb_spec c " ") as [-> | _].
  - rewrite unescape_plain by done. by rewrite IH.
  - destruct (url.shouldEscape c).
    + apply andb_prop in Hc as [Hc Hback]. rewrite unescape_percent, Hc, IH.
      apply Ascii.eqb_eq in Hback. by rewrite Hback.
    + apply andb_prop in Hc as [Hp Hq].
      apply negb_true_iff in Hp, Hq.
      rewrite unescape_plain by done. by rewrite IH, Hq.
Qed.

Lemma QueryUnescape_QueryEscape s :
  url.QueryUnescape (url.QueryEscape s) = (s, None).
Proof. unfold url.QueryUnescape. by rewrite unescape_QueryEscape. Qed.

Lemma QueryEscape_nonempty s : s ≠ EmptyString -> url.QueryEscape s ≠ EmptyString.
Proof.
  destruct s as [| c s]; [done |]. intros _. simpl.
  destruct (Ascii.eqb c " "); [done |]. by destruct (url.shouldEscape c).
Qed.

Lemma lower_hex_unreserved c :
  is_lower_hex c = true -> Ascii.eqb c " " = false /\ url.shouldEscape c = false.
Proof. destruct c as [[] [] [] [] [] [] [] []]; by vm_compute. Qed.

Lemma QueryEscape_hex s :
  all_chars is_lower_hex s = true -> url.QueryEscape s = s.
Proof.
  induction s as [| c s IH]; [done |]. simpl.
  intros [Hc Hs]%andb_prop. destruct (lower_hex_unreserved c Hc) as [-> ->].
  by rewrite IH.
Qed.

(** ** What [GetSession] tells the client *)

Lemma resolve_id_flag q rnd r sessionid sid err ck :
  resolve_id q rnd r sessionid = (sid, err, true, ck) -> ~ has_cookie q r.
Proof.
  unfold resolve_id, has_cookie. intros H (c & Hc & Hv). rewrite Hc in H.
  destruct (String.eqb_spec (http.Value c) "") as [E | _]; [done |].
  by destruct (url.QueryUnescape _).
Qed.

Lemma resolve_id_own_cookie q rnd r sessionid sid err ck :
  resolve_id q rnd r sessionid = (sid, err, false, ck) ->
  exists c, ck = Some c /\ http.CookieOf r (CookieName q) = Some c /\
            http.Value c ≠ EmptyString /\
            url.QueryUnescape (http.Value c) = (sid, err).
Proof.
  unfold resolve_id. destruct (http.CookieOf r (CookieName q)) as [c |].
  - destruct (String.eqb_spec (http.Value c) "") as [E | E].
    + destruct (String.eqb sessionid ""); [destruct (sessionId rnd) |]; congruence.
    + destruct (url.QueryUnescape _) as [s e] eqn:Hq. intros [= <- <- <-].
      by exists c.
  - destruct (String.eqb sessionid ""); [destruct (sessionId rnd) |]; congruence.
Qed.

Lemma touch_brk e σ : brk (touch e σ) = brk σ.
Proof. reflexivity. Qed.

Lemma SetCookie_cases w c :
  http.isCookieNameValid (http.Name c) = true /\ http.SetCookie w c = w ++ [c] \/
  http.isCookieNameValid (http.Name c) = false /\ http.SetCookie w c = w.
Proof.
  unfold http.SetCookie.
  destruct (http.isCookieNameValid (http.Name c)); [by left | by right].
Qed.

Lemma CookieOf_name r name c : http.CookieOf r name = Some c -> http.Name c = name.
Proof.
  induction r as [| c0 r IH]; simpl; [done |].
  destruct (String.eqb_spec (http.Name c0) name) as [E | _]; [| done].
  by intros [= <-].
Qed.

Local Ltac silent :=
  exists []; rewrite app_nil_r;
  repeat split; simpl; first [done | lia | constructor].

(** X3: a call of [GetSession] that returns hands at most one cookie to the
    response, and only a cookie of the manager's shape whose name is a
    valid cookie name and whose value is the escaped identifier of the
    store the call has just created; that same cookie is then passed to
    [r.AddCookie].  It writes none when the request brought a cookie with a
    value, and none, leaving the request alone too, when no store was
    created.  When a store was created for a request without such a cookie
    and the manager's cookie name is valid, a cookie is written; and
    whenever a store was created, the cookie passed to [r.AddCookie] has
    the manager's name and a value that unescapes to the identifier of the
    new store. *)
Theorem GetSession_response (rnd : RandRead) (w : http.ResponseWriter)
    (r : http.Request) (sessionid : string) (σ : State)
    (session : option nat) (err : option error) (w' : http.ResponseWriter)
    (r' : http.Request) (σ' : State) :
  GetSession rnd w r sessionid σ = Return (session, err, w', r', σ') ->
  exists added,
    w' = w ++ added /\ (length added <= 1)%nat /\
    Forall (fun ck =>
              session_cookie_shape (p σ) ck /\
              http.isCookieNameValid (http.Name ck) = true /\
              session = Some (brk σ) /\
              http.Value ck = url.QueryEscape (store_id (heap σ' (brk σ))) /\
              r' = http.AddCookie r ck) added /\
    (has_cookie (p σ) r -> added = []) /\
    (brk σ' = brk σ -> added = [] /\ r' = r) /\
    (brk σ' ≠ brk σ -> ~ has_cookie (p σ) r ->
     http.isCookieNameValid (CookieName (p σ)) = true -> added ≠ []) /\
    (brk σ' ≠ brk σ ->
     exists c, r' = http.AddCookie r c /\ http.Name c = CookieName (p σ) /\
               url.QueryUnescape (http.Value c)
                 = (store_id (heap σ' (brk σ)), None)).
Proof.
  unfold GetSession.
  destruct (resolve_id (p σ) rnd r sessionid) as [[[sid e0] wc] ck] eqn:Hr.
  destruct e0 as [e0 |].
  { intros [= <- <- <- <- <-]. silent. }
  pose proof (resolve_id_nonempty _ _ _ _ _ _ _ Hr) as Hsid.
  destruct (lookup_session sid σ) as [sess |].
  { intros [= <- <- <- <- <-]. silent. }
  destruct (create sid σ) as [[[s1 e1] σ1] | |] eqn:Hc; simpl; try done.
  destruct e1 as [e1 |].
  { apply create_returns in Hc as [-> ->].
    intros [= <- <- <- <- <-]. silent. }
  assert (Hnew : s1 = Some (brk σ) /\ brk σ1 = S (brk σ) /\
                 store_id (heap σ1 (brk σ)) = sid).
  { revert Hc. unfold create.
    destruct (newSessionStore _ _ σ) as [st | ?]; [| done]. simpl.
    destruct (list_ (p σ)); [| done]. destruct (sessions (p σ)); [| done].
    intros [= <- <-]. simpl. rewrite decide_True by done.
    by rewrite Id_sets. }
  destruct Hnew as (-> & Hbrk & Hid).
  destruct wc; simpl.
  - intros [= <- <- <- <- <-].
    match goal with
    | |- context [http.SetCookie w ?c] =>
        destruct (SetCookie_cases w c) as [[Hv ->] | [Hv ->]]
    end.
    + eexists [_]. split; [reflexivity |].
      split; [simpl; lia |]. split.
      { constructor; [| done]. rewrite Hid. by repeat split. }
      split; [intros Hck; by apply resolve_id_flag in Hr |].
      split; [lia |]. split; [done |].
      intros _. eexists. split; [reflexivity |]. split; [done |].
      simpl. rewrite Hid. apply QueryUnescape_QueryEscape.
    + exists []. rewrite app_nil_r.
      split; [done |]. split; [simpl; lia |]. split; [constructor |].
      split; [done |]. split; [lia |].
      split; [intros _ _ Hvalid; simpl in Hv; congruence |].
      intros _. eexists. split; [reflexivity |]. split; [done |].
      simpl. rewrite Hid. apply QueryUnescape_QueryEscape.
  - destruct ck as [c |]; [| done].
    intros [= <- <- <- <- <-].
    apply resolve_id_own_cookie in Hr as (c' & [= <-] & Hc' & Hne & Hq).
    exists []. rewrite app_nil_r.
    split; [done |]. split; [simpl; lia |]. split; [constructor |].
    split; [done |]. split; [lia |].
    split; [intros _ Hno; exfalso; apply Hno; by exists c |].
    intros _. exists c. split; [done |].
    split; [by eapply CookieOf_name |]. by rewrite Hid.
Qed.

Lemma GetSession_response_witness :
  exists added,
    [demo_cookie] = [] ++ added /\ (length added <= 1)%nat /\
    Forall (fun ck =>
              session_cookie_shape (p demo) ck /\
              http.isCookieNameValid (http.Name ck) = true /\
              Some 0%nat = Some (brk demo) /\
              http.Value ck
                = url.QueryEscape (store_id (heap demo_first (brk demo))) /\
              demo_echo = http.AddCookie [] ck) added /\
    (has_cookie (p demo) [] -> added = []) /\
    (brk demo_first = brk demo -> added = [] /\ demo_echo = []) /\
    (brk demo_first ≠ brk demo -> ~ has_cookie (p demo) [] ->
     http.isCookieNameValid (CookieName (p demo)) = true -> added ≠ []) /\
    (brk demo_first ≠ brk demo ->
     exists c, demo_echo = http.AddCookie [] c /\
               http.Name c = CookieName (p demo) /\
               url.QueryUnescape (http.Value c)
                 = (store_id (heap demo_first (brk demo)), None)).
Proof.
  apply (GetSession_response demo_rnd [] [] "" demo (Some 0%nat) None
           [demo_cookie] demo_echo demo_first).
  by vm_compute.
Defined.

Lemma create_config sid σ session err σ' :
  create sid σ = Return (session, err, σ') ->
  CookieName (p σ') = CookieName (p σ) /\ Domain (p σ') = Domain (p σ) /\
  StoreType (p σ') = StoreType (p σ) /\ StoreConfig (p σ') = StoreConfig (p σ) /\
  IdleTime (p σ') = IdleTime (p σ) /\ CookieExpire (p σ') = CookieExpire (p σ).
Proof.
  unfold create. destruct (newSessionStore _ _ σ) as [st | e]; simpl.
  - destruct (list_ (p σ)); [| done]. destruct (sessions (p σ)); [| done].
    by intros [= <- <- <-].
  - by intros [= <- <- <-].
Qed.

(** What a call that wrote a cookie has done: the cookie carries the
    escaped working identifier, under which the session is now indexed. *)
Lemma GetSession_wrote rnd w r sessionid σ session err ck r' σ' :
  GetSession rnd w r sessionid σ = Return (session, err, w ++ [ck], r', σ') ->
  exists sid e,
    sid ≠ EmptyString /\ http.Value ck = url.QueryEscape sid /\
    lookup_session sid σ' = Some e /\ session = Some (golist.Value e) /\
    err = None /\ CookieName (p σ') = CookieName (p σ).
Proof.
  assert (Hw : forall l : list http.Cookie, w ++ [ck] ≠ w).
  { intros _ H. apply (f_equal length) in H. rewrite length_app in H.
    simpl in H. lia. }
  unfold GetSession.
  destruct (resolve_id (p σ) rnd r sessionid) as [[[sid e0] wc] c0] eqn:Hr.
  destruct e0 as [e0 |]; [intros [= _ _ H]; symmetry in H; by apply Hw in H |].
  pose proof (resolve_id_nonempty _ _ _ _ _ _ _ Hr) as Hsid.
  destruct (lookup_session sid σ) as [sess |];
    [intros [= _ _ H]; symmetry in H; by apply Hw in H |].
  destruct (create sid σ) as [[[s1 e1] σ1] | |] eqn:Hc; simpl; try done.
  pose proof (create_config _ _ _ _ _ Hc) as (Hname & _).
  apply create_returns in Hc.
  destruct e1 as [e1 |]; [intros [= _ _ H]; symmetry in H; by apply Hw in H |].
  destruct Hc as (e & -> & Hlook & _).
  destruct wc; simpl.
  - match goal with
    | |- context [http.SetCookie w ?c] =>
        destruct (SetCookie_cases w c) as [[_ ->] | [_ ->]]
    end.
    + intros [= <- <- H <- <-]. apply app_inv_head in H. injection H as <-.
      by exists sid, e.
    + intros [= _ _ H]. symmetry in H. by apply Hw in H.
  - destruct c0; [| done]. intros [= _ _ H]. symmetry in H. by apply Hw in H.
Qed.

(** X4: the cookie a call of [GetSession] wrote comes back in a later
    request as a cookie of the manager's name with the same value; that
    request is led to the same store: nothing is allocated, no cookie is
    written, the request is left alone, whatever identifier the caller
    asks for, and the store is stamped with the time of the call. *)
Theorem cookie_round_trip (rnd : RandRead) (w : http.ResponseWriter)
    (r : http.Request) (sessionid : string) (σ : State) (session : nat)
    (ck : http.Cookie) (r1 : http.Request) (σ1 : State)
    (rnd2 : RandRead) (w2 : http.ResponseWriter) (r2 : http.Request)
    (c2 : http.Cookie) (sessionid2 : string) :
  GetSession rnd w r sessionid σ
    = Return (Some session, None, w ++ [ck], r1, σ1) ->
  http.CookieOf r2 (CookieName (p σ)) = Some c2 ->
  http.Value c2 = http.Value ck ->
  exists σ2,
    GetSession rnd2 w2 r2 sessionid2 σ1 = Return (Some session, None, w2, r2, σ2) /\
    brk σ2 = brk σ1 /\
    sessions (p σ2) = sessions (p σ1) /\
    store_active (heap σ2 session) = now σ1.
Proof.
  intros H1 Hck Hsame.
  apply GetSession_wrote in H1 as (sid & e & Hsid & Hval & Hlook & [= ->] & _ & Hname).
  rewrite <- Hsame in Hval.
  exists (touch e σ1). split.
  - apply GetSession_cookie_hit with (c := c2) (sid := sid); try done.
    + by rewrite Hname.
    + rewrite Hval. by apply QueryEscape_nonempty.
    + rewrite Hval. apply QueryUnescape_QueryEscape.
  - destruct (touch_fields e σ1) as (Fm & _ & _ & _ & Fb & _ & _ & _ & _ & Fa & _).
    done.
Qed.

Lemma cookie_round_trip_witness :
  exists σ2,
    GetSession (mkRandRead [] 0 true) [] demo_echo "other" demo_first
      = Return (Some 0%nat, None, [], demo_echo, σ2) /\
    brk σ2 = brk demo_first /\
    sessions (p σ2) = sessions (p demo_first) /\
    store_active (heap σ2 0%nat) = now demo_first.
Proof.
  apply (cookie_round_trip demo_rnd [] [] "" demo 0 demo_cookie demo_echo
           demo_first (mkRandRead [] 0 true) [] demo_echo
           (http.mkCookie "sid"
              "abababababababababababababababababababababababab" "" "" None 0
              false)
           "other").
  - by vm_compute.
  - reflexivity.
  - reflexivity.
Defined.

(** X5: a call of [GetSession] or [GetSessionById] that returns an error
    returns no session and has changed nothing: the state, the response
    and the request are the ones it was given. *)
Theorem lookup_errors_change_nothing (σ : State) :
  (forall rnd w r sessionid session e w' r' σ',
     GetSession rnd w r sessionid σ = Return (session, Some e, w', r', σ') ->
     session = None /\ w' = w /\ r' = r /\ σ' = σ) /\
  (forall sid session e σ',
     GetSessionById sid σ = Return (session, Some e, σ') ->
     session = None /\ σ' = σ).
Proof.
  split.
  - intros rnd w r sessionid session e w' r' σ'. unfold GetSession.
    destruct (resolve_id (p σ) rnd r sessionid) as [[[sid e0] wc] c0].
    destruct e0 as [e0 |]; [by intros [= <- _ <- <- <-] |].
    destruct (lookup_session sid σ); [done |].
    destruct (create sid σ) as [[[s1 e1] σ1] | |] eqn:Hc; simpl; try done.
    apply create_returns in Hc.
    destruct e1 as [e1 |].
    + destruct Hc as [-> ->]. by intros [= <- _ <- <- <-].
    + destruct (if wc then _ else c0); done.
  - intros sid session e σ'. unfold GetSessionById.
    destruct (String.eqb sid ""); [done |].
    destruct (lookup_session sid σ); [done |].
    intros Hc. by apply create_returns in Hc.
Qed.

(** A failed read of the random source, and a cookie that is no valid
    escape. *)
Example lookup_errors :
  GetSession (mkRandRead [] 0 true) [] [] "" demo
    = Return (None, Some ErrCSPRNG, [], [], demo) /\
  GetSession demo_rnd []
    [http.mkCookie "sid" "%zz" "" "" None 0 false] "" demo
    = Return (None, Some (EscapeError "%zz"), [],
              [http.mkCookie "sid" "%zz" "" "" None 0 false], demo).
Proof. split; reflexivity. Qed.

(** ** Where a run of [gc] stops *)

(** The loop ends on a destroyed manager, on the empty list with [sleep]
    as it was, or on a front entry that is not due, with [sleep] set to the
    time that entry has left. *)
Lemma gc_loop_stops fuel : forall sleep log σ σ' sleep' log',
  gc_loop fuel sleep log σ = Return (σ', sleep', log') ->
  destroied (p σ') = false ->
  exists l',
    list_ (p σ') = Some l' /\
    match l' with
    | [] => sleep' = sleep
    | element :: _ =>
        now σ' < add64 (active_of σ' element) (IdleTime (p σ')) /\
        sleep' = sub64 (add64 (active_of σ' element) (IdleTime (p σ'))) (now σ')
    end.
Proof.
  induction fuel as [| fuel IH]; intros sleep log σ σ' sleep' log'; simpl.
  - destruct (destroied (p σ)) eqn:D; [| done]. intros [= <- <- <-]. congruence.
  - destruct (destroied (p σ)) eqn:D. { intros [= <- <- <-]. congruence. }
    destruct (list_ (p σ)) as [l |] eqn:Hl; [| done].
    destruct l as [| element l]; simpl.
    { intros [= <- <- <-] _. by exists []. }
    destruct (_ >? _) eqn:Htest.
    + intros [= <- <- <-] _. exists (element :: l). split; [done |].
      rewrite Z.gtb_ltb in Htest. apply Z.ltb_lt in Htest. by split.
    + apply IH.
Qed.

Lemma gc_loop_again fuel : forall sleep log σ σ' sleep' log' fuel' log'',
  gc_loop fuel sleep log σ = Return (σ', sleep', log') ->
  gc_loop (S fuel') sleep log'' σ' = Return (σ', sleep', log'').
Proof.
  induction fuel as [| fuel IH];
    intros sleep log σ σ' sleep' log' fuel' log''.
  - simpl. destruct (destroied (p σ)) eqn:D; [| done].
    intros [= <- <- <-]. by rewrite D.
  - cbn [gc_loop]. destruct (destroied (p σ)) eqn:D.
    { intros [= <- <- <-]. by rewrite D. }
    destruct (list_ (p σ)) as [l |] eqn:Hl; [| done].
    destruct l as [| element l]; cbn [golist.Front head].
    { intros [= <- <- <-]. by rewrite D, Hl. }
    destruct (_ >? _) eqn:Htest.
    + intros [= <- <- <-]. rewrite D, Hl. cbn [golist.Front head].
      by rewrite Htest.
    + apply IH.
Qed.

(** X6: a second run of [gc] at the same time finds nothing to do: it
    evicts nothing, leaves the state as the first run left it, and arms
    the same timer. *)
Theorem gc_twice (σ σ' : State) (timer : option Z) (log : list Eviction) :
  gc σ = Return (σ', timer, log) -> gc σ' = Return (σ', timer, []).
Proof.
  intros H. unfold gc in H.
  destruct (gc_loop _ 10 [] σ) as [[[σ1 sleep] log1] | |] eqn:Hloop;
    simpl in H; try done.
  inversion H; subst; clear H. unfold gc.
  by erewrite gc_loop_again by exact Hloop.
Qed.

Lemma gc_twice_witness :
  gc demo_swept = Return (demo_swept, Some 10000000000, []).
Proof.
  apply (gc_twice (tick 2 demo_abc) demo_swept (Some 10000000000)
           [mkEviction 0 100 102]).
  by vm_compute.
Defined.

(** X7: a run of [gc] that ends on a list with a front entry arms the
    timer with the 64-bit value of (last-active + idle timeout - now)
    seconds of that entry, taken to nanoseconds; when these computations
    do not overflow, the timer fires exactly when the front entry falls
    due, and that moment lies ahead. *)
Theorem gc_timer (σ σ' : State) (timer : option Z) (log : list Eviction)
    (element : golist.Element) (rest : list golist.Element) :
  gc σ = Return (σ', timer, log) ->
  destroied (p σ) = false ->
  list_ (p σ') = Some (element :: rest) ->
  timer = Some (mul64 (sub64 (add64 (active_of σ' element) (IdleTime (p σ')))
                         (now σ')) 1000000000) /\
  (in_int64 (active_of σ' element + IdleTime (p σ')) ->
   in_int64 ((active_of σ' element + IdleTime (p σ') - now σ') * 1000000000) ->
   0 < active_of σ' element + IdleTime (p σ') - now σ' /\
   timer = Some ((active_of σ' element + IdleTime (p σ') - now σ') * 1000000000)).
Proof.
  unfold gc. intros H D Hl.
  destruct (gc_loop _ 10 [] σ) as [[[σ1 sleep] log1] | |] eqn:Hloop;
    simpl in H; try done.
  injection H as <- <- <-.
  pose proof (gc_loop_destroied _ _ _ _ _ _ _ Hloop) as D1. rewrite D in D1.
  destruct (gc_loop_stops _ _ _ _ _ _ _ Hloop D1) as (l' & Hl' & Hstop).
  rewrite Hl in Hl'. injection Hl' as <-. destruct Hstop as [Hdue ->].
  rewrite D1. split; [done |].
  intros Hsum Hprod. unfold add64 in *. rewrite wrap64_in_range in * by done.
  assert (Hpos : 0 < active_of σ1 element + IdleTime (p σ1) - now σ1) by lia.
  split; [done |].
  assert (Hdiff : in_int64 (active_of σ1 element + IdleTime (p σ1) - now σ1)).
  { unfold in_int64, int64_min, int64_max in *. lia. }
  unfold mul64, sub64. by rewrite (wrap64_in_range _ Hdiff), wrap64_in_range.
Qed.

Lemma gc_timer_witness :
  Some 1000000000
    = Some (mul64 (sub64 (add64 (active_of (tick 1 demo_abc) (golist.mkElement 0 0))
                            (IdleTime (p (tick 1 demo_abc))))
                     (now (tick 1 demo_abc))) 1000000000) /\
  (in_int64 (active_of (tick 1 demo_abc) (golist.mkElement 0 0)
             + IdleTime (p (tick 1 demo_abc))) ->
   in_int64 ((active_of (tick 1 demo_abc) (golist.mkElement 0 0)
              + IdleTime (p (tick 1 demo_abc)) - now (tick 1 demo_abc))
             * 1000000000) ->
   0 < active_of (tick 1 demo_abc) (golist.mkElement 0 0)
       + IdleTime (p (tick 1 demo_abc)) - now (tick 1 demo_abc) /\
   Some 1000000000
     = Some ((active_of (tick 1 demo_abc) (golist.mkElement 0 0)
              + IdleTime (p (tick 1 demo_abc)) - now (tick 1 demo_abc))
             * 1000000000)).
Proof.
  apply (gc_timer (tick 1 demo_abc) (tick 1 demo_abc) (Some 1000000000) []
           (golist.mkElement 0 0) []).
  - by vm_compute.
  - reflexivity.
  - reflexivity.
Defined.

(** ** What a run of [gc] removes and what it keeps *)

Lemma evict_sessions element σ :
  exists key,
    sessions (p (evict element σ)) = delete key <$> sessions (p σ).
Proof. unfold evict; simpl. destruct (prepireRelease (p σ)); by eexists. Qed.

Lemma evict_lookup_None sid element σ :
  lookup_session sid σ = None -> lookup_session sid (evict element σ) = None.
Proof.
  unfold lookup_session. destruct (evict_sessions element σ) as [key ->].
  destruct (sessions (p σ)) as [m |]; simpl; [| done].
  intros H. apply lookup_delete_None. by right.
Qed.

Lemma gc_loop_lookup_None sid fuel : forall sleep log σ σ' sleep' log',
  lookup_session sid σ = None ->
  gc_loop fuel sleep log σ = Return (σ', sleep', log') ->
  lookup_session sid σ' = None.
Proof.
  induction fuel as [| fuel IH]; intros sleep log σ σ' sleep' log' Hnone; simpl.
  - destruct (destroied (p σ)); [| done]. by intros [= <- <- <-].
  - destruct (destroied (p σ)); [by intros [= <- <- <-] |].
    destruct (list_ (p σ)) as [l |]; [| done].
    destruct (golist.Front l) as [element |]; [| by intros [= <- <- <-]].
    destruct (_ >? _); [by intros [= <- <- <-] |].
    apply IH. by apply evict_lookup_None.
Qed.

Lemma gc_loop_brk fuel : forall sleep log σ σ' sleep' log',
  gc_loop fuel sleep log σ = Return (σ', sleep', log') -> brk σ' = brk σ.
Proof.
  induction fuel as [| fuel IH]; intros sleep log σ σ' sleep' log'; simpl.
  - destruct (destroied (p σ)); [| done]. by intros [= <- <- <-].
  - destruct (destroied (p σ)); [by intros [= <- <- <-] |].
    destruct (list_ (p σ)) as [l |]; [| done].
    destruct (golist.Front l) as [element |]; [| by intros [= <- <- <-]].
    destruct (_ >? _); [by intros [= <- <- <-] |].
    intros H. apply IH in H. rewrite H. unfold evict; simpl.
    by destruct (prepireRelease (p σ)).
Qed.

Lemma gc_loop_forgets fuel : forall sleep log σ σ' sleep' log',
  consistent σ ->
  gc_loop fuel sleep log σ = Return (σ', sleep', log') ->
  exists new,
    log' = log ++ new /\
    Forall (fun ev =>
              lookup_session (store_id (heap σ (ev_store ev))) σ' = None /\
              (ev_store ev < brk σ)%nat) new.
Proof.
  induction fuel as [| fuel IH]; intros sleep log σ σ' sleep' log' Hc; simpl.
  - destruct (destroied (p σ)); [| done]. intros [= <- <- <-].
    exists []. by rewrite app_nil_r.
  - destruct (destroied (p σ)).
    { intros [= <- <- <-]. exists []. by rewrite app_nil_r. }
    destruct Hc as (m & l & Hm & Hl & Hd & Hcb & Hok). rewrite Hl.
    destruct l as [| element l]; simpl.
    { intros [= <- <- <-]. exists []. by rewrite app_nil_r. }
    destruct (_ >? _).
    { intros [= <- <- <-]. exists []. by rewrite app_nil_r. }
    intros H.
    destruct (evict_fields element σ Hcb)
      as (Fm & _ & _ & _ & Fb & _ & _ & _ & Fid & _).
    destruct (IH _ _ _ _ _ _ (evict_consistent _ _ _ _ Hm Hl Hd Hcb Hok) H)
      as (new & -> & Hnew).
    eexists (_ :: new). split; [by rewrite <- app_assoc |].
    constructor; simpl.
    + split; [| apply (ok_alloc _ _ _ Hok); by left].
      eapply gc_loop_lookup_None; [| exact H].
      unfold lookup_session. rewrite Fm, Hm; simpl. apply lookup_delete_eq.
    + eapply Forall_impl; [exact Hnew |]. cbv beta.
      intros ev. by rewrite Fid, Fb.
Qed.

(** X8: on a manager in use, the identifier of every session a run of
    [gc] releases is no longer indexed afterwards, so the next
    [GetSessionById] for it creates a new store instead of handing out the
    released one. *)
Theorem gc_forgets (σ σ' : State) (timer : option Z) (log : list Eviction) :
  reachable σ ->
  gc σ = Return (σ', timer, log) ->
  forall ev, ev ∈ log ->
    lookup_session (store_id (heap σ (ev_store ev))) σ' = None /\
    forall session σ'',
      GetSessionById (store_id (heap σ (ev_store ev))) σ'
        = Return (Some session, None, σ'') ->
      session = brk σ' /\ session ≠ ev_store ev /\ brk σ'' = S (brk σ').
Proof.
  intros Hc%reachable_consistent H ev Hev. unfold gc in H.
  destruct (gc_loop _ 10 [] σ) as [[[σ1 sleep] log1] | |] eqn:Hloop;
    simpl in H; try done.
  inversion H; subst; clear H.
  pose proof (gc_loop_brk _ _ _ _ _ _ _ Hloop) as Hbrk.
  destruct (gc_loop_forgets _ _ _ _ _ _ _ Hc Hloop) as (new & -> & Hnew).
  rewrite Forall_forall in Hnew. destruct (Hnew ev Hev) as [Hnone Hlt].
  split; [done |].
  intros session σ''. unfold GetSessionById.
  destruct (String.eqb _ ""); [done |]. rewrite Hnone.
  intros Hcr. apply create_returns in Hcr as (e & [= ->] & _ & -> & Hb).
  split; [done |]. split; [lia | done].
Qed.

Lemma gc_forgets_witness :
  lookup_session (store_id (heap (tick 2 demo_abc) 0%nat)) demo_swept = None /\
  forall session σ'',
    GetSessionById (store_id (heap (tick 2 demo_abc) 0%nat)) demo_swept
      = Return (Some session, None, σ'') ->
    session = brk demo_swept /\ session ≠ 0%nat /\ brk σ'' = S (brk demo_swept).
Proof.
  apply (gc_forgets (tick 2 demo_abc) demo_swept (Some 10000000000)
           [mkEviction 0 100 102]) with (ev := mkEviction 0 100 102).
  - apply reach_tick. apply (reach_call (CallGetSessionById "abc") demo).
    + by apply (reach_new demo_config blank demo (Some 10000000000)).
    + by vm_compute.
  - by vm_compute.
  - by left.
Defined.

Lemma evict_heap_same element σ :
  heap (evict element σ) (golist.Value element)
    = Release (callback (p σ) (heap σ (golist.Value element))).
Proof.
  unfold evict, callback, update. destruct (prepireRelease (p σ)); simpl.
  - by rewrite !decide_True.
  - by rewrite decide_True.
Qed.

Lemma evict_callback element σ st :
  callback (p (evict element σ)) st = callback (p σ) st.
Proof.
  unfold evict, callback, update; simpl.
  destruct (prepireRelease (p σ)) eqn:E; simpl; by rewrite E.
Qed.

Lemma gc_loop_effect fuel : forall sleep log σ σ' sleep' log' l,
  gc_loop fuel sleep log σ = Return (σ', sleep', log') ->
  list_ (p σ) = Some l ->
  NoDup (golist.Value <$> l) ->
  exists new,
    log' = log ++ new /\
    (forall b, b ∉ ev_store <$> new -> heap σ' b = heap σ b) /\
    Forall (fun ev =>
              ev_store ev ∈ golist.Value <$> l /\
              heap σ' (ev_store ev)
                = Release (callback (p σ) (heap σ (ev_store ev)))) new /\
    NoDup (ev_store <$> new).
Proof.
  induction fuel as [| fuel IH]; intros sleep log σ σ' sleep' log' l; simpl.
  - destruct (destroied (p σ)); [| done]. intros [= <- <- <-] _ _.
    silent.
  - destruct (destroied (p σ)).
    { intros [= <- <- <-] _ _.
      silent. }
    intros H Hl Hnd. rewrite Hl in H.
    destruct l as [| element l]; simpl in H.
    { injection H as <- <- <-.
      silent. }
    destruct (_ >? _).
    { injection H as <- <- <-.
      silent. }
    pose proof (evict_list element σ _ Hl) as Hlist.
    rewrite Remove_front in Hlist.
    rewrite fmap_cons in Hnd. apply NoDup_cons in Hnd as [Hfront Hnd].
    assert (Hsub : golist.Value <$> golist.Remove element l ⊆ golist.Value <$> l).
    { intros v (x & -> & Hx)%list_elem_of_fmap.
      apply list_elem_of_fmap. exists x. split; [done |].
      by apply Remove_subseteq in Hx. }
    destruct (IH _ _ _ _ _ _ _ H Hlist)
      as (new & -> & Hframe & Hnew & Hnd').
    { eapply sublist_NoDup; [exact Hnd | apply fmap_sublist, Remove_sublist]. }
    assert (Hnotin : golist.Value element ∉ ev_store <$> new).
    { intros (ev & Hev & Hin)%list_elem_of_fmap.
      rewrite Forall_forall in Hnew. destruct (Hnew ev Hin) as [Hmem _].
      apply Hsub in Hmem. by rewrite <- Hev in Hmem. }
    eexists (_ :: new). split; [by rewrite <- app_assoc |].
    split; [| split].
    + intros b Hb. rewrite fmap_cons, not_elem_of_cons in Hb.
      destruct Hb as [Hb1 Hb2]. rewrite Hframe by done.
      by apply evict_heap_other.
    + constructor; simpl.
      * split; [by left |]. rewrite Hframe by done. apply evict_heap_same.
      * eapply Forall_impl; [exact Hnew |]. cbv beta.
        intros ev [Hmem Heq]. apply Hsub in Hmem.
        split; [by right |]. rewrite Heq, evict_callback.
        rewrite evict_heap_other; [done |].
        intros E. by rewrite E in Hmem.
    + rewrite fmap_cons. by apply NoDup_cons.
Qed.

(** X9: a run of [gc] changes no store but the ones it evicts; each of
    those is handed to the callback, when one is set, and then released,
    once. *)
Theorem gc_touches_only_evicted (σ σ' : State) (timer : option Z)
    (log : list Eviction) (l : list golist.Element) :
  gc σ = Return (σ', timer, log) ->
  list_ (p σ) = Some l ->
  NoDup (golist.Value <$> l) ->
  (forall b, b ∉ ev_store <$> log -> heap σ' b = heap σ b) /\
  (forall ev, ev ∈ log ->
     heap σ' (ev_store ev) = Release (callback (p σ) (heap σ (ev_store ev)))) /\
  NoDup (ev_store <$> log).
Proof.
  unfold gc. intros H Hl Hnd.
  destruct (gc_loop _ 10 [] σ) as [[[σ1 sleep] log1] | |] eqn:Hloop;
    simpl in H; try done.
  injection H as <- <- <-.
  destruct (gc_loop_effect _ _ _ _ _ _ _ _ Hloop Hl Hnd)
    as (new & -> & Hframe & Hnew & Hnd').
  simpl. split; [done |]. split; [| done].
  intros ev Hev. rewrite Forall_forall in Hnew. by destruct (Hnew ev Hev).
Qed.

Lemma gc_touches_only_evicted_witness :
  (forall b, b ∉ ev_store <$> [mkEviction 0 100 102] ->
     heap demo_marked b = heap demo_marking b) /\
  (forall ev, ev ∈ [mkEviction 0 100 102] ->
     heap demo_marked (ev_store ev)
       = Release (callback (p demo_marking) (heap demo_marking (ev_store ev)))) /\
  NoDup (ev_store <$> [mkEviction 0 100 102]).
Proof.
  apply (gc_touches_only_evicted demo_marking demo_marked (Some 10000000000)
           [mkEviction 0 100 102] [golist.mkElement 0 0]).
  - by vm_compute.
  - reflexivity.
  - apply NoDup_singleton.
Defined.

Example demo_marked_store :
  heap demo_marked 0%nat = mkStore "abc" 0 100 true.
Proof. reflexivity. Qed.

Lemma NoDup_fmap_elem_inj {A B} (f : A -> B) (l : list A) (x y : A) :
  NoDup (f <$> l) -> x ∈ l -> y ∈ l -> f x = f y -> x = y.
Proof.
  induction l as [| a l IH]; [by intros _ ?%elem_of_nil |].
  rewrite fmap_cons. intros [Hnot Hnd]%NoDup_cons.
  intros [-> | Hx]%elem_of_cons [-> | Hy]%elem_of_cons E; try done.
  - exfalso. apply Hnot. rewrite E. by apply list_elem_of_fmap_2.
  - exfalso. apply Hnot. rewrite <- E. by apply list_elem_of_fmap_2.
  - by apply IH.
Qed.

(** A session that is not due stays indexed, with its store as it was. *)
Lemma gc_loop_keeps fuel : forall sleep log σ σ' sleep' log' sid e,
  consistent σ ->
  gc_loop fuel sleep log σ = Return (σ', sleep', log') ->
  lookup_session sid σ = Some e ->
  in_int64 (active_of σ e + IdleTime (p σ)) ->
  now σ < active_of σ e + IdleTime (p σ) ->
  lookup_session sid σ' = Some e /\
  heap σ' (golist.Value e) = heap σ (golist.Value e).
Proof.
  induction fuel as [| fuel IH];
    intros sleep log σ σ' sleep' log' sid e Hc; simpl.
  - destruct (destroied (p σ)); [| done]. by intros [= <- <- <-].
  - destruct (destroied (p σ)); [by intros [= <- <- <-] |].
    destruct Hc as (m & l & Hm & Hl & Hd & Hcb & Hok). rewrite Hl.
    destruct l as [| element l]; simpl; [by intros [= <- <- <-] |].
    destruct (_ >? _) eqn:Htest; [by intros [= <- <- <-] |].
    intros H Hlook Hrange Hlive.
    rewrite Z.gtb_ltb in Htest. apply Z.ltb_ge in Htest.
    unfold lookup_session in Hlook. rewrite Hm in Hlook.
    pose proof Hlook as [Hin Hid]%(ok_index _ _ _ Hok).
    assert (Hne : e ≠ element).
    { intros ->. unfold add64, active_of in *.
      rewrite wrap64_in_range in Htest by done. lia. }
    assert (Hval : golist.Value e ≠ golist.Value element).
    { intros E. apply Hne.
      eapply NoDup_fmap_elem_inj;
        [apply (ok_value _ _ _ Hok) | done | by left | done]. }
    destruct (evict_fields element σ Hcb)
      as (Fm & _ & _ & _ & _ & _ & _ & Fnow & _ & _).
    destruct (evict_p_now element σ) as (_ & Fidle & _).
    pose proof (evict_heap_other element σ _ Hval) as Fheap.
    assert (Hfront : m !! store_id (heap σ (golist.Value element)) = Some element).
    { apply (ok_index _ _ _ Hok). split; [by left | done]. }
    destruct (IH _ _ _ _ _ _ sid e
                (evict_consistent _ _ _ _ Hm Hl Hd Hcb Hok) H) as [Hl' Hh'].
    + unfold lookup_session. rewrite Fm, Hm; simpl.
      apply lookup_delete_Some. split; [| done]. intros E.
      rewrite E in Hfront. congruence.
    + unfold active_of. by rewrite Fheap, Fidle.
    + unfold active_of. by rewrite Fheap, Fidle, Fnow.
    + split; [done |]. by rewrite Hh'.
Qed.

Lemma gc_keeps σ σ' timer log sid e :
  consistent σ ->
  gc σ = Return (σ', timer, log) ->
  lookup_session sid σ = Some e ->
  in_int64 (active_of σ e + IdleTime (p σ)) ->
  now σ < active_of σ e + IdleTime (p σ) ->
  lookup_session sid σ' = Some e /\
  heap σ' (golist.Value e) = heap σ (golist.Value e).
Proof.
  intros Hc H. unfold gc in H.
  destruct (gc_loop _ 10 [] σ) as [[[σ1 sleep] log1] | |] eqn:Hloop;
    simpl in H; try done.
  injection H as <- <- <-. by eapply gc_loop_keeps.
Qed.

(** X10: on a manager in use, a run of [gc] leaves alone every session
    whose idle timeout has not run out (the sum of its last-active time
    and the timeout being an [int64]): it stays indexed under its
    identifier and its store is not touched. *)
Theorem gc_keeps_live_sessions (σ σ' : State) (timer : option Z)
    (log : list Eviction) (sid : string) (e : golist.Element) :
  reachable σ ->
  gc σ = Return (σ', timer, log) ->
  lookup_session sid σ = Some e ->
  in_int64 (active_of σ e + IdleTime (p σ)) ->
  now σ < active_of σ e + IdleTime (p σ) ->
  lookup_session sid σ' = Some e /\
  heap σ' (golist.Value e) = heap σ (golist.Value e) /\
  golist.Value e ∉ ev_store <$> log.
Proof.
  intros Hr H Hlook Hrange Hlive.
  pose proof (reachable_consistent _ Hr) as Hc.
  destruct (gc_keeps _ _ _ _ _ _ Hc H Hlook Hrange Hlive) as [Hl' Hh'].
  split; [done |]. split; [done |].
  destruct Hc as (m & l & Hm & Hl & _ & _ & Hok).
  intros (ev & Hev & Hin)%list_elem_of_fmap.
  unfold gc in H.
  destruct (gc_loop _ 10 [] σ) as [[[σ1 sleep] log1] | |] eqn:Hloop;
    simpl in H; try done.
  injection H as <- <- <-.
  destruct (gc_loop_evictions _ _ _ _ _ _ _ _ Hloop Hl (ok_value _ _ _ Hok))
    as (_ & new & -> & Hnew).
  rewrite Forall_forall in Hnew.
  destruct (Hnew ev Hin) as (_ & Hact & _ & Hle & _).
  unfold add64, active_of in *. rewrite Hev, <- Hact in Hrange, Hlive.
  rewrite wrap64_in_range in Hle by done. lia.
Qed.

Lemma gc_keeps_live_sessions_witness :
  lookup_session "abc" (tick 1 demo_abc) = Some (golist.mkElement 0 0) /\
  heap (tick 1 demo_abc) 0%nat = heap (tick 1 demo_abc) 0%nat /\
  0%nat ∉ ev_store <$> [].
Proof.
  apply (gc_keeps_live_sessions (tick 1 demo_abc) (tick 1 demo_abc)
           (Some 1000000000) [] "abc" (golist.mkElement 0 0)).
  - apply reach_tick. apply (reach_call (CallGetSessionById "abc") demo).
    + by apply (reach_new demo_config blank demo (Some 10000000000)).
    + by vm_compute.
  - by vm_compute.
  - reflexivity.
  - by vm_compute.
  - by vm_compute.
Defined.

(** X11: after a run of [gc] on a manager in use, whose store factories
    stamp a new store with the time of its construction, no session that
    is left has outlived the idle timeout (the sums of last-active time and
    timeout being [int64] values): every session that was due is gone. *)
Theorem gc_leaves_no_due_session (σ σ' : State) (timer : option Z)
    (log : list Eviction) :
  reachable σ -> stamping (stores σ) ->
  gc σ = Return (σ', timer, log) ->
  Forall (fun a => in_int64 (a + IdleTime (p σ'))) (list_actives σ') ->
  Forall (fun a => now σ' < a + IdleTime (p σ')) (list_actives σ').
Proof.
  intros Hr Hst H Hrange.
  assert (Hexec : exec CallGc σ = Return σ') by (simpl; by rewrite H).
  assert (Hr' : reachable σ') by (by eapply reach_call).
  rewrite <- (exec_stores _ _ _ Hexec) in Hst.
  destruct (reachable_ordered _ Hr' Hst) as [Hsorted _].
  destruct (reachable_consistent _ Hr') as (m & l & _ & Hl & Hd & _).
  unfold gc in H.
  destruct (gc_loop _ 10 [] σ) as [[[σ1 sleep] log1] | |] eqn:Hloop;
    simpl in H; try done.
  injection H as <- <- <-.
  destruct (gc_loop_stops _ _ _ _ _ _ _ Hloop Hd) as (l' & Hl' & Hstop).
  rewrite Hl in Hl'. injection Hl' as <-.
  rewrite (list_actives_eq _ _ Hl) in *.
  destruct l as [| element l]; [constructor |].
  destruct Hstop as [Hdue _]. rewrite fmap_cons in *.
  apply Forall_cons in Hrange as [Hfront _].
  unfold add64, active_of in Hdue. rewrite wrap64_in_range in Hdue by done.
  apply StronglySorted_inv in Hsorted as [_ Hle].
  constructor; [done |].
  eapply Forall_impl; [exact Hle |]. cbv beta. intros a Ha. lia.
Qed.

Lemma gc_leaves_no_due_session_witness :
  Forall (fun a => now demo_busy_swept < a + IdleTime (p demo_busy_swept))
    (list_actives demo_busy_swept).
Proof.
  apply (gc_leaves_no_due_session demo_busy demo_busy_swept (Some 1000000000)
           [mkEviction 0 101 103]).
  - apply demo_busy_reachable.
  - apply demo_busy_stamping.
  - by vm_compute.
  - repeat constructor; by vm_compute.
Defined.

Example demo_busy_swept_list :
  list_actives demo_busy_swept = [102] /\ now demo_busy_swept = 103 /\
  store_id <$> list_stores demo_busy_swept = ["worker"%string].
Proof. by vm_compute. Qed.

(** X12: a session found by [SessionUpdate] or [GetSessionById] is safe
    from [gc] for the idle timeout that follows: a run of [gc] less than
    that many seconds later leaves it indexed (the sum of the time of the
    access and the timeout being an [int64]). *)
Theorem refreshed_session_survives (σ σ1 σ2 : State) (sid : string)
    (e : golist.Element) (d : nat) (timer : option Z) (log : list Eviction) :
  reachable σ ->
  lookup_session sid σ = Some e ->
  SessionUpdate sid σ = Return σ1 \/
    GetSessionById sid σ = Return (Some (golist.Value e), None, σ1) ->
  in_int64 (now σ + IdleTime (p σ)) ->
  Z.of_nat d < IdleTime (p σ) ->
  gc (tick d σ1) = Return (σ2, timer, log) ->
  lookup_session sid σ2 = Some e /\
  store_active (heap σ2 (golist.Value e)) = now σ /\
  golist.Value e ∉ ev_store <$> log.
Proof.
  intros Hr Hlook Hcall Hrange Hd H.
  pose proof (reachable_consistent _ Hr) as Hc.
  assert (Hσ1 : σ1 = touch e σ).
  { destruct Hcall as [Hu | Hg].
    - unfold SessionUpdate in Hu. rewrite Hlook in Hu. by injection Hu.
    - unfold GetSessionById in Hg. destruct (String.eqb sid ""); [done |].
      rewrite Hlook in Hg. by injection Hg. }
  subst σ1.
  destruct (touch_fields e σ)
    as (_ & _ & _ & _ & _ & _ & _ & _ & _ & Fa & _).
  assert (Hc1 : consistent (tick d (touch e σ))).
  { apply tick_consistent. by eapply touch_consistent. }
  assert (Hidle : IdleTime (p (tick d (touch e σ))) = IdleTime (p σ)) by done.
  assert (Hact : active_of (tick d (touch e σ)) e = now σ) by exact Fa.
  assert (Hnow : now (tick d (touch e σ)) = now σ + Z.of_nat d) by done.
  assert (Hrange' : in_int64 (active_of (tick d (touch e σ)) e
                              + IdleTime (p (tick d (touch e σ)))))
    by (by rewrite Hact, Hidle).
  assert (Hlive : now (tick d (touch e σ))
                  < active_of (tick d (touch e σ)) e
                    + IdleTime (p (tick d (touch e σ))))
    by (rewrite Hact, Hidle, Hnow; lia).
  destruct (gc_keeps _ _ _ _ sid e Hc1 H) as [Hl2 Hh2]; try done.
  split; [done |]. split; [by rewrite Hh2 |].
  destruct Hc1 as (m & l & Hm & Hl & _ & _ & Hok).
  intros (ev & Hev & Hin)%list_elem_of_fmap.
  unfold gc in H.
  destruct (gc_loop _ 10 [] (tick d (touch e σ)))
    as [[[σ3 sleep] log1] | |] eqn:Hloop; simpl in H; try done.
  injection H as <- <- <-.
  destruct (gc_loop_evictions _ _ _ _ _ _ _ _ Hloop Hl (ok_value _ _ _ Hok))
    as (_ & new & -> & Hnew).
  rewrite Forall_forall in Hnew.
  destruct (Hnew ev Hin) as (_ & Hact' & _ & Hle & _).
  unfold add64, active_of in *. rewrite Hev, <- Hact' in Hrange', Hlive.
  rewrite wrap64_in_range in Hle by done. lia.
Qed.

Lemma refreshed_session_survives_witness :
  lookup_session "abc" (tick 1 (touch (golist.mkElement 0 0) (tick 5 demo_abc)))
    = Some (golist.mkElement 0 0) /\
  store_active (heap (tick 1 (touch (golist.mkElement 0 0) (tick 5 demo_abc)))
                  0%nat) = now (tick 5 demo_abc) /\
  0%nat ∉ ev_store <$> [].
Proof.
  apply (refreshed_session_survives (tick 5 demo_abc)
           (touch (golist.mkElement 0 0) (tick 5 demo_abc))
           (tick 1 (touch (golist.mkElement 0 0) (tick 5 demo_abc)))
           "abc" (golist.mkElement 0 0) 1 (Some 1000000000) []).
  - apply reach_tick. apply (reach_call (CallGetSessionById "abc") demo).
    + by apply (reach_new demo_config blank demo (Some 10000000000)).
    + by vm_compute.
  - reflexivity.
  - left. reflexivity.
  - by vm_compute.
  - by vm_compute.
  - by vm_compute.
Defined.

(** ** Identifiers in the map *)

Lemma create_lookup_other sid sid' σ session err σ' :
  create sid σ = Return (session, err, σ') -> sid' ≠ sid ->
  lookup_session sid' σ' = lookup_session sid' σ.
Proof.
  unfold create. destruct (newSessionStore _ _ σ) as [st | e]; simpl.
  - destruct (list_ (p σ)); [| done].
    destruct (sessions (p σ)) as [m |] eqn:Hm; [| done].
    intros [= <- <- <-] Hne. unfold lookup_session; simpl. rewrite Hm.
    by apply lookup_insert_ne.
  - by intros [= <- <- <-].
Qed.

Lemma exec_no_empty c σ σ' :
  lookup_session "" σ = None -> exec c σ = Return σ' ->
  lookup_session "" σ' = None.
Proof.
  intros Hnone.
  destruct c as [rnd w r sessionid | sid | sid | w r | sid |]; simpl.
  - unfold GetSession.
    destruct (resolve_id (p σ) rnd r sessionid) as [[[sid e0] wc] ck] eqn:Hr.
    destruct e0; simpl; [by intros [= <-] |].
    apply resolve_id_nonempty in Hr.
    destruct (lookup_session sid σ); simpl; [by intros [= <-] |].
    destruct (create sid σ) as [[[s1 e1] σ1] | |] eqn:Hcr; simpl; try done.
    pose proof (create_lookup_other _ "" _ _ _ _ Hcr ltac:(done)) as Hsame.
    destruct e1; simpl; [intros [= <-]; congruence |].
    destruct (if wc then _ else ck); simpl; [| done].
    intros [= <-]. congruence.
  - unfold GetSessionById.
    destruct (String.eqb_spec sid "") as [E | E]; simpl; [by intros [= <-] |].
    destruct (lookup_session sid σ); simpl; [by intros [= <-] |].
    destruct (create sid σ) as [[[s1 e1] σ1] | |] eqn:Hcr; simpl; try done.
    pose proof (create_lookup_other _ "" _ _ _ _ Hcr ltac:(done)) as Hsame.
    intros [= <-]. congruence.
  - unfold SessionUpdate.
    destruct (lookup_session sid σ); intros [= <-]; exact Hnone.
  - unfold SessionDestroy.
    destruct (http.CookieOf r _) as [ck |]; simpl; [| by intros [= <-]].
    destruct (String.eqb (http.Value ck) ""); simpl; intros [= <-]; [done |].
    destruct (lookup_session (fst _) σ); exact Hnone.
  - unfold SessionDestroyById.
    destruct (lookup_session sid σ); intros [= <-]; exact Hnone.
  - unfold gc.
    destruct (gc_loop _ 10 [] σ) as [[[σ1 sleep] log1] | |] eqn:Hloop;
      simpl; try done.
    intros [= <-]. by eapply gc_loop_lookup_None.
Qed.

Lemma reachable_no_empty σ : reachable σ -> lookup_session "" σ = None.
Proof.
  induction 1 as [c σ0 σ timer Hnew | c σ σ' _ IH Hexec | d σ _ IH].
  - apply NewSessionManager_state in Hnew as (Hm & _).
    unfold lookup_session. by rewrite Hm.
  - by eapply exec_no_empty.
  - exact IH.
Qed.

(** X13: a manager in use never indexes a session under the empty
    identifier; so a [SessionDestroy] whose cookie is not a valid escape
    returns the empty identifier and clears the client's cookie, but
    releases no session and leaves the state as it is. *)
Theorem no_empty_identifier (σ : State) :
  reachable σ ->
  lookup_session "" σ = None /\
  forall w r c e,
    http.CookieOf r (CookieName (p σ)) = Some c ->
    http.Value c ≠ EmptyString ->
    url.unescape (http.Value c) = inr e ->
    SessionDestroy w r σ
      = Return (EmptyString, http.SetCookie w (clearing_cookie σ), σ).
Proof.
  intros Hnone%reachable_no_empty. split; [done |].
  intros w r c e Hc Hv He. unfold SessionDestroy. rewrite Hc.
  destruct (String.eqb_spec (http.Value c) "") as [E | _]; [done |].
  unfold url.QueryUnescape. rewrite He; simpl. by rewrite Hnone.
Qed.

Lemma no_empty_identifier_witness :
  lookup_session "" demo_busy = None /\
  forall w r c e,
    http.CookieOf r (CookieName (p demo_busy)) = Some c ->
    http.Value c ≠ EmptyString ->
    url.unescape (http.Value c) = inr e ->
    SessionDestroy w r demo_busy
      = Return (EmptyString, http.SetCookie w (clearing_cookie demo_busy),
                demo_busy).
Proof. exact (no_empty_identifier demo_busy demo_busy_reachable). Defined.

Lemma consistent_dom σ m l :
  sessions (p σ) = Some m -> list_ (p σ) = Some l -> tables_ok σ m l ->
  dom m = list_to_set ((fun e => store_id (heap σ (golist.Value e))) <$> l).
Proof.
  intros Hm Hl Hok. apply set_eq. intros sid.
  rewrite elem_of_dom, elem_of_list_to_set, list_elem_of_fmap. split.
  - intros [e [Hin Hid]%(ok_index _ _ _ Hok)]. by exists e.
  - intros (e & -> & Hin). exists e. by apply (ok_index _ _ _ Hok).
Qed.

Lemma consistent_ids_NoDup σ m l :
  tables_ok σ m l ->
  NoDup ((fun e => store_id (heap σ (golist.Value e))) <$> l).
Proof.
  intros Hok. apply NoDup_fmap_2_strong.
  - intros x y Hx Hy E.
    assert (m !! store_id (heap σ (golist.Value x)) = Some x)
      by (by apply (ok_index _ _ _ Hok)).
    assert (m !! store_id (heap σ (golist.Value y)) = Some y)
      by (by apply (ok_index _ _ _ Hok)).
    congruence.
  - eapply NoDup_fmap_1. apply (ok_eaddr _ _ _ Hok).
Qed.

(** X14: in a manager in use no two entries of the recency list carry
    stores of the same identifier, and the map has exactly as many keys
    as the list has entries. *)
Theorem identifiers_unique (σ : State) :
  reachable σ ->
  NoDup (store_id <$> list_stores σ) /\
  exists m l,
    sessions (p σ) = Some m /\ list_ (p σ) = Some l /\ size m = length l.
Proof.
  intros (m & l & Hm & Hl & _ & _ & Hok)%reachable_consistent.
  pose proof (consistent_ids_NoDup _ _ _ Hok) as Hnd.
  split.
  - unfold list_stores. rewrite Hl; simpl. by rewrite <- list_fmap_compose.
  - exists m, l. repeat (split; [done |]).
    rewrite <- size_dom, (consistent_dom _ _ _ Hm Hl Hok).
    rewrite size_list_to_set by done. by rewrite length_fmap.
Qed.

Lemma identifiers_unique_witness :
  NoDup (store_id <$> list_stores demo_busy) /\
  exists m l,
    sessions (p demo_busy) = Some m /\ list_ (p demo_busy) = Some l /\
    size m = length l.
Proof. exact (identifiers_unique demo_busy demo_busy_reachable). Defined.

(** X15: no call panics on a manager in use, the loop of [gc] always
    ends, and the state a call leaves is again one of a manager in use. *)
Theorem calls_return (σ : State) (c : call) :
  reachable σ -> exists σ', exec c σ = Return σ' /\ reachable σ'.
Proof.
  intros Hr. destruct (exec_returns c σ (reachable_consistent _ Hr)) as [σ' H].
  exists σ'. split; [done |]. by eapply reach_call.
Qed.

Lemma calls_return_witness :
  exists σ', exec CallGc demo_busy = Return σ' /\ reachable σ'.
Proof. exact (calls_return demo_busy CallGc demo_busy_reachable). Defined.

(** ** The registry and the manager *)

(** X16: a registration that returns has added a factory under a name that
    was free; a manager working with the registry it leaves builds the
    stores of that type through this factory, errors of the factory
    included, and stores of every other type as before the registration,
    unknown types still failing. *)
Theorem registered_factory_is_used (name : string)
    (one : option SessionStoreType) (reg reg' : gmap string SessionStoreType) :
  RegisterSessionStore name one reg = Return reg' ->
  exists f,
    one = Some f /\ reg !! name = None /\
    forall σ config,
      stores σ = reg' ->
      newSessionStore name config σ = f config (now σ) /\
      forall other, other ≠ name ->
        newSessionStore other config σ =
          match reg !! other with
          | Some g => g config (now σ)
          | None => inr (ErrNoTypes other)
          end.
Proof.
  unfold RegisterSessionStore. destruct one as [f |]; [| done].
  destruct (reg !! name) eqn:Hfree; [done |]. intros [= <-].
  exists f. repeat (split; [done |]).
  intros σ config Hσ. unfold newSessionStore. rewrite Hσ. split.
  - by rewrite lookup_insert_eq.
  - intros other Hne. by rewrite lookup_insert_ne.
Qed.

Lemma registered_factory_is_used_witness :
  exists f,
    Some NewMemoryStore = Some f /\
    (∅ : gmap string SessionStoreType) !! "memory"%string = None /\
    forall σ config,
      stores σ = memory_registry ->
      newSessionStore "memory" config σ = f config (now σ) /\
      forall other, other ≠ "memory"%string ->
        newSessionStore other config σ =
          match (∅ : gmap string SessionStoreType) !! other with
          | Some g => g config (now σ)
          | None => inr (ErrNoTypes other)
          end.
Proof.
  apply (registered_factory_is_used "memory" (Some NewMemoryStore) ∅
           memory_registry).
  reflexivity.
Defined.

(** ** The session a lookup returns *)

Lemma GetSessionById_indexed sid σ session σ' :
  GetSessionById sid σ = Return (Some session, None, σ') ->
  sid ≠ EmptyString /\
  exists e, lookup_session sid σ' = Some e /\ golist.Value e = session.
Proof.
  unfold GetSessionById.
  destruct (String.eqb_spec sid "") as [E | E]; [done |].
  destruct (lookup_session sid σ) as [sess |] eqn:Hlook.
  - intros [= <- <-]. split; [done |]. exists sess.
    by rewrite lookup_session_touch.
  - intros Hc. apply create_returns in Hc as (e & [= ->] & Hl & _).
    split; [done |]. by exists e.
Qed.

Lemma GetSession_indexed rnd w r sessionid σ session w' r' σ' :
  GetSession rnd w r sessionid σ = Return (Some session, None, w', r', σ') ->
  exists sid writeCookie e,
    spec_working_id (CookieName (p σ)) rnd r sessionid = (sid, None, writeCookie) /\
    lookup_session sid σ' = Some e /\ golist.Value e = session.
Proof.
  pose proof (resolve_id_spec (p σ) rnd r sessionid) as Hspec.
  unfold GetSession.
  destruct (resolve_id (p σ) rnd r sessionid) as [[[sid e0] wc] ck].
  destruct e0 as [e0 |]; [done |]. rewrite <- Hspec.
  destruct (lookup_session sid σ) as [sess |] eqn:Hlook.
  - intros [= <- <- <- <-]. exists sid, wc, sess.
    by rewrite lookup_session_touch.
  - destruct (create sid σ) as [[[s1 e1] σ1] | |] eqn:Hc; simpl; try done.
    apply create_returns in Hc. destruct e1 as [e1 |]; [done |].
    destruct Hc as (e & -> & Hl & _).
    destruct (if wc then _ else ck); [| done].
    intros [= <- <- <- <-]. by exists sid, wc, e.
Qed.

Lemma indexed_store_id σ sid e :
  consistent σ -> lookup_session sid σ = Some e ->
  store_id (heap σ (golist.Value e)) = sid.
Proof.
  intros (m & l & Hm & _ & _ & _ & Hok). unfold lookup_session. rewrite Hm.
  by intros [_ ?]%(ok_index _ _ _ Hok).
Qed.

(** X17: on a manager in use, the session [GetSessionById] returns for an
    identifier reports that identifier, the session [GetSession] returns
    reports the working identifier of the request, and asking
    [GetSessionById] again for the identifier returns the same store
    without allocating. *)
Theorem returned_session_has_identifier (σ : State) :
  reachable σ ->
  (forall sid session σ',
     GetSessionById sid σ = Return (Some session, None, σ') ->
     store_id (heap σ' session) = sid /\
     exists σ'',
       GetSessionById sid σ' = Return (Some session, None, σ'') /\
       brk σ'' = brk σ') /\
  (forall rnd w r sessionid session w' r' σ',
     GetSession rnd w r sessionid σ = Return (Some session, None, w', r', σ') ->
     exists sid writeCookie,
       spec_working_id (CookieName (p σ)) rnd r sessionid
         = (sid, None, writeCookie) /\
       store_id (heap σ' session) = sid /\
       exists σ'',
         GetSessionById sid σ' = Return (Some session, None, σ'') /\
         brk σ'' = brk σ').
Proof.
  intros Hc%reachable_consistent. split.
  - intros sid session σ' H.
    pose proof (GetSessionById_consistent _ _ _ _ _ Hc H) as Hc'.
    apply GetSessionById_indexed in H as (Hsid & e & Hl & <-).
    split; [by apply indexed_store_id |].
    exists (touch e σ'). unfold GetSessionById.
    destruct (String.eqb_spec sid "") as [E | _]; [done |]. by rewrite Hl.
  - intros rnd w r sessionid session w' r' σ' H.
    pose proof (GetSession_consistent _ _ _ _ _ _ _ _ _ _ Hc H) as Hc'.
    apply GetSession_indexed in H as (sid & wc & e & Hspec & Hl & <-).
    exists sid, wc. split; [done |].
    split; [by apply indexed_store_id |].
    exists (touch e σ'). unfold GetSessionById.
    destruct (String.eqb_spec sid "") as [E | _]; [| by rewrite Hl].
    subst sid. rewrite <- resolve_id_spec in Hspec.
    destruct (resolve_id (p σ) rnd r sessionid) as [[[s0 e0] w0] c0] eqn:Hr.
    injection Hspec as -> -> ->. by apply resolve_id_nonempty in Hr.
Qed.

Lemma returned_session_has_identifier_witness :
  (forall sid session σ',
     GetSessionById sid demo_busy = Return (Some session, None, σ') ->
     store_id (heap σ' session) = sid /\
     exists σ'',
       GetSessionById sid σ' = Return (Some session, None, σ'') /\
       brk σ'' = brk σ') /\
  (forall rnd w r sessionid session w' r' σ',
     GetSession rnd w r sessionid demo_busy
       = Return (Some session, None, w', r', σ') ->
     exists sid writeCookie,
       spec_working_id (CookieName (p demo_busy)) rnd r sessionid
         = (sid, None, writeCookie) /\
       store_id (heap σ' session) = sid /\
       exists σ'',
         GetSessionById sid σ' = Return (Some session, None, σ'') /\
         brk σ'' = brk σ').
Proof.
  exact (returned_session_has_identifier demo_busy demo_busy_reachable).
Defined.

(** ** The default manager *)

(** X18: initialising with the nil configuration leaves the package
    without a default manager, the previous one destroyed; in that state
    every function of the package panics on the nil receiver, except
    [GetSessionById] with the empty identifier, which returns no session
    and no error. *)
Theorem package_without_manager (k : Package) :
  exists k' previous,
    InitDefaultSessionManager None k = Return (k', previous, None) /\
    defaultSessionManager k' = None /\
    (forall m, defaultSessionManager k = Some m ->
       exists m0, previous = Some m0 /\ destroied m0 = true /\
                  sessions m0 = None /\ list_ m0 = None) /\
    facade.GetSessionById "" k' = Return (None, None, k') /\
    (forall sid, sid ≠ EmptyString ->
       facade.GetSessionById sid k' = facade.nil_receiver) /\
    (forall rnd w r sid, facade.GetSession rnd w r sid k' = facade.nil_receiver) /\
    (forall w r, facade.SessionDestroy w r k' = facade.nil_receiver) /\
    (forall sid, facade.SessionDestroyById sid k' = facade.nil_receiver) /\
    (forall sid, facade.SessionUpdate sid k' = facade.nil_receiver) /\
    (forall pf, facade.SetPrepireRelease pf k' = facade.nil_receiver).
Proof.
  eexists _, _. split; [reflexivity |]. split; [reflexivity |].
  split.
  { intros m Hm. rewrite Hm; simpl. by eexists. }
  split; [reflexivity |].
  split.
  { intros sid Hsid. unfold facade.GetSessionById; simpl.
    by destruct (String.eqb_spec sid ""). }
  repeat split.
Qed.

(** X19: initialising with a configuration replaces the default manager
    by a new one with that configuration, an empty map and list and a timer
    armed for ten seconds; the previous manager is destroyed, its stores
    are neither released nor otherwise changed, and the new manager hands
    out none of them: a lookup through the package returns a store it
    creates, or none. *)
Theorem init_replaces_manager (c : Config) (k : Package) :
  exists k' m' previous,
    InitDefaultSessionManager (Some c) k
      = Return (k', previous, Some 10000000000) /\
    defaultSessionManager k' = Some m' /\
    sessions m' = Some ∅ /\ list_ m' = Some [] /\ destroied m' = false /\
    (Domain m', StoreType m', CookieName m', IdleTime m', CookieExpire m',
     StoreConfig m')
      = (domain c, store_type c, cookie_name c, idle_time c, cookie_expire c,
         store_config c) /\
    (forall a, pkg_heap k' a = pkg_heap k a) /\
    pkg_brk k' = pkg_brk k /\ pkg_stores k' = pkg_stores k /\
    (forall m, defaultSessionManager k = Some m ->
       exists m0, previous = Some m0 /\ destroied m0 = true /\
                  sessions m0 = None /\ list_ m0 = None) /\
    (forall sid session err k'',
       facade.GetSessionById sid k' = Return (session, err, k'') ->
       session = None \/
       session = Some (pkg_brk k) /\ pkg_brk k'' = S (pkg_brk k)).
Proof.
  eexists _, _, _. split; [reflexivity |]. simpl.
  repeat (split; [reflexivity |]).
  split.
  { intros m Hm. rewrite Hm; simpl. by eexists. }
  intros sid session err k''. unfold facade.GetSessionById; simpl.
  unfold GetSessionById.
  destruct (String.eqb sid ""); simpl; [intros [= <- _ _]; by left |].
  unfold lookup_session; simpl. rewrite lookup_empty.
  destruct (create sid _) as [[[s1 e1] σ1] | |] eqn:Hc; simpl; try done.
  intros [= <- <- <-]. apply create_returns in Hc.
  destruct e1 as [e1 |]; [left; by destruct Hc |].
  destruct Hc as (e & -> & _ & -> & Hb). right. split; [reflexivity | exact Hb].
Qed.

(** The sessions of the previous default manager are out of reach. *)
Example init_drops_sessions :
  (s ← facade.GetSessionById "abc" demo_package_abc; Return (fst (fst s)))
    = Return (Some 0%nat) /\
  ('(k, _, _) ← InitDefaultSessionManager (Some demo_config) demo_package_abc;
   s ← facade.GetSessionById "abc" k; Return (fst (fst s)))
    = Return (Some 1%nat).
Proof. split; reflexivity. Qed.

(** ** The first visit of a client *)

Lemma GetSession_generated rnd w r σ session err ck r' σ' :
  GetSession rnd w r "" σ = Return (session, err, w ++ [ck], r', σ') ->
  exists sid,
    sessionId rnd = (sid, None) /\ http.Value ck = url.QueryEscape sid /\
    session = Some (brk σ) /\ store_id (heap σ' (brk σ)) = sid.
Proof.
  assert (Hw : w ++ [ck] ≠ w).
  { intros H. apply (f_equal length) in H. rewrite length_app in H.
    simpl in H. lia. }
  unfold GetSession.
  destruct (resolve_id (p σ) rnd r "") as [[[sid e0] wc] c0] eqn:Hr.
  destruct e0 as [e0 |]; [intros [= _ _ H]; by symmetry in H |].
  pose proof (resolve_id_nonempty _ _ _ _ _ _ _ Hr) as Hsid.
  destruct (lookup_session sid σ) as [sess |];
    [intros [= _ _ H]; by symmetry in H |].
  destruct (create sid σ) as [[[s1 e1] σ1] | |] eqn:Hc; simpl; try done.
  destruct e1 as [e1 |]; [intros [= _ _ H]; by symmetry in H |].
  assert (Hnew : s1 = Some (brk σ) /\ store_id (heap σ1 (brk σ)) = sid).
  { revert Hc. unfold create.
    destruct (newSessionStore _ _ σ) as [st | ?]; [| done]. simpl.
    destruct (list_ (p σ)); [| done]. destruct (sessions (p σ)); [| done].
    intros [= <- <-]. simpl. rewrite decide_True by done.
    by rewrite Id_sets. }
  destruct Hnew as [-> Hid].
  destruct wc; simpl.
  - match goal with
    | |- context [http.SetCookie w ?c] =>
        destruct (SetCookie_cases w c) as [[_ ->] | [_ ->]]
    end; [| intros [= _ _ H]; by symmetry in H].
    intros [= <- <- H <- <-]. apply app_inv_head in H. injection H as <-.
    exists sid. repeat split; try done.
    revert Hr. unfold resolve_id.
    destruct (http.CookieOf r (CookieName (p σ))) as [c |].
    + destruct (String.eqb (http.Value c) ""); simpl.
      * destruct (sessionId rnd) as [s0 e0']. by intros [= -> ->].
      * destruct (url.QueryUnescape _). congruence.
    + simpl. destruct (sessionId rnd) as [s0 e0']. by intros [= -> ->].
  - destruct c0; [| done]. intros [= _ _ H]. by symmetry in H.
Qed.

(** X20: when a request that asks for no identifier is answered with a
    cookie, the value of the cookie is the generated identifier itself,
    48 digits of [0123456789abcdef] that escaping leaves as they are, and
    it is the identifier of the store just created. *)
Theorem first_visit_cookie (rnd : RandRead) (w : http.ResponseWriter)
    (r : http.Request) (σ : State) (session : option nat)
    (err : option error) (ck : http.Cookie) (r' : http.Request) (σ' : State) :
  GetSession rnd w r "" σ = Return (session, err, w ++ [ck], r', σ') ->
  http.Value ck = hex.EncodeToString (rand_bytes rnd) /\
  String.length (http.Value ck) = 48%nat /\
  all_chars is_lower_hex (http.Value ck) = true /\
  session = Some (brk σ) /\
  store_id (heap σ' (brk σ)) = http.Value ck.
Proof.
  intros (sid & Hgen & Hval & Hs & Hid)%GetSession_generated.
  rewrite sessionId_unfold in Hgen.
  destruct (negb _ || rand_err rnd); [done |]. injection Hgen as <-.
  rewrite QueryEscape_hex in Hval by apply EncodeToString_digits.
  rewrite Hval, EncodeToString_length, EncodeToString_digits, rand_bytes_length.
  done.
Qed.

Lemma first_visit_cookie_witness :
  http.Value demo_cookie = hex.EncodeToString (rand_bytes demo_rnd) /\
  String.length (http.Value demo_cookie) = 48%nat /\
  all_chars is_lower_hex (http.Value demo_cookie) = true /\
  Some 0%nat = Some (brk demo) /\
  store_id (heap demo_first (brk demo)) = http.Value demo_cookie.
Proof.
  apply (first_visit_cookie demo_rnd [] [] demo (Some 0%nat) None demo_cookie
           demo_echo demo_first).
  by vm_compute.
Defined.

(** ** The order of evictions *)

Lemma gc_loop_prefix fuel : forall sleep log σ σ' sleep' log' l,
  consistent σ ->
  gc_loop fuel sleep log σ = Return (σ', sleep', log') ->
  list_ (p σ) = Some l ->
  exists gone l' new,
    l = gone ++ l' /\ list_ (p σ') = Some l' /\ log' = log ++ new /\
    ev_store <$> new = golist.Value <$> gone.
Proof.
  induction fuel as [| fuel IH]; intros sleep log σ σ' sleep' log' l Hc; simpl.
  - destruct (destroied (p σ)); [| done]. intros [= <- <- <-] Hl.
    exists [], l, []. by rewrite !app_nil_r.
  - destruct (destroied (p σ)).
    { intros [= <- <- <-] Hl. exists [], l, []. by rewrite !app_nil_r. }
    destruct Hc as (m & l0 & Hm & Hl0 & Hd & Hcb & Hok).
    intros H Hl. rewrite Hl in Hl0. injection Hl0 as <-. rewrite Hl in H.
    destruct l as [| element l]; simpl in H.
    { injection H as <- <- <-. exists [], [], []. by rewrite !app_nil_r. }
    destruct (_ >? _).
    { injection H as <- <- <-. exists [], (element :: l), [].
      by rewrite !app_nil_r. }
    pose proof (evict_list element σ _ Hl) as Hlist.
    rewrite Remove_head in Hlist by apply (ok_eaddr _ _ _ Hok).
    destruct (IH _ _ _ _ _ _ _ (evict_consistent _ _ _ _ Hm Hl Hd Hcb Hok)
                H Hlist) as (gone & l' & new & -> & Hl' & -> & Hnew).
    exists (element :: gone), l'. eexists (_ :: new).
    split; [done |]. split; [done |]. split; [by rewrite <- app_assoc |].
    rewrite !fmap_cons. by rewrite Hnew.
Qed.

(** X21: a run of [gc] on a manager in use takes its evictions off the
    front of the recency list, in list order: the stores it releases are
    those of a prefix of the list, and the rest of the list stays, in its
    order. *)
Theorem gc_evicts_a_prefix (σ σ' : State) (timer : option Z)
    (log : list Eviction) (l : list golist.Element) :
  reachable σ ->
  gc σ = Return (σ', timer, log) ->
  list_ (p σ) = Some l ->
  exists gone l',
    l = gone ++ l' /\ list_ (p σ') = Some l' /\
    ev_store <$> log = golist.Value <$> gone.
Proof.
  intros Hc%reachable_consistent H Hl. unfold gc in H.
  destruct (gc_loop _ 10 [] σ) as [[[σ1 sleep] log1] | |] eqn:Hloop;
    simpl in H; try done.
  injection H as <- <- <-.
  destruct (gc_loop_prefix _ _ _ _ _ _ _ _ Hc Hloop Hl)
    as (gone & l' & new & -> & Hl' & -> & Hnew).
  by exists gone, l'.
Qed.

Lemma gc_evicts_a_prefix_witness :
  exists gone l',
    [golist.mkElement 0 0; golist.mkElement 1 1] = gone ++ l' /\
    list_ (p demo_busy_swept) = Some l' /\
    ev_store <$> [mkEviction 0 101 103] = golist.Value <$> gone.
Proof.
  apply (gc_evicts_a_prefix demo_busy demo_busy_swept (Some 1000000000)
           [mkEviction 0 101 103]
           [golist.mkElement 0 0; golist.mkElement 1 1]).
  - apply demo_busy_reachable.
  - by vm_compute.
  - reflexivity.
Defined.
